(** * ApplyBucketsWork: catch-up application of buckets to the bucket list

    A shallow embedding of [src/catchup/ApplyBucketsWork.cpp] and the
    properties of its level walk: the cascade of replacements, the
    resolution of bucket hashes, the commit points and the reset. *)

From Stdlib Require Import String Ascii List Arith Bool Lia.
From stdpp Require Import base option list gmap strings sorting.

(** ** Data model *)

(** [uint256]: a 32-byte opaque array (xdr [opaque[32]]), as its bytes. *)
Definition uint256 : Type := list Byte.byte.

Definition zeroHash : uint256 := repeat Byte.x00 32.

(** Modelled from the spec: [isZero] (util/types.h) is not under src/; the
    spec names "the all-zero hash", so every byte is compared with zero. *)
Definition isZero (h : uint256) : bool := forallb (Byte.eqb Byte.x00) h.

(** An entry of a bucket: a live ledger entry or a tombstone, both kept as
    their xdr text, which this unit never inspects. *)
Inductive BucketEntry : Type :=
| LIVEENTRY (entry : string)
| DEADENTRY (key : string).

(** [Bucket]: immutable once built; [Bucket()] is the empty bucket with the
    zero hash. *)
Record Bucket : Type := mkBucket {
  getHash : uint256;
  getEntries : list BucketEntry
}.

Definition emptyBucket : Bucket := mkBucket zeroHash [].

(** [BucketLevel]: the two bucket references of one level. *)
Record BucketLevel : Type := mkLevel {
  getCurr : Bucket;
  getSnap : Bucket
}.

Definition setSnap (b : Bucket) (l : BucketLevel) : BucketLevel :=
  mkLevel (getCurr l) b.

Definition setCurr (b : Bucket) (l : BucketLevel) : BucketLevel :=
  mkLevel b (getSnap l).

(** [HistoryStateBucket]: the hex hashes of one level of the target. *)
Record HistoryStateBucket : Type := mkHSB {
  curr : string;
  snap : string
}.

(** [HistoryArchiveState]: only [currentBuckets] is read by this unit. *)
Record HistoryArchiveState : Type := mkHAS {
  currentBuckets : list HistoryStateBucket
}.

(** Modelled from the spec: [BucketApplicator] (bucket/BucketApplicator.h)
    is not under src/; the spec describes a resumable cursor over a bucket,
    truthy while entries remain, whose [advance] applies one bounded chunk
    of entries to the database. The cursor is kept as the entries that are
    still to be applied. *)
Record BucketApplicator : Type := mkApplicator {
  appBucket : Bucket;
  appRest : list BucketEntry
}.

Definition makeApplicator (b : Bucket) : BucketApplicator :=
  mkApplicator b (getEntries b).

(** [operator bool] of the applicator. *)
Definition hasWork (a : BucketApplicator) : bool :=
  match appRest a with
  | [] => false
  | _ :: _ => true
  end.

(** [o && *o] for an optional applicator. *)
Definition active (o : option BucketApplicator) : bool :=
  match o with
  | Some a => hasWork a
  | None => false
  end.

(** The entries an optional applicator has still to apply. *)
Definition rest (o : option BucketApplicator) : list BucketEntry :=
  match o with
  | Some a => appRest a
  | None => []
  end.

Inductive Slot : Type := SNAP | CURR.

(** Calls made to the bucket pool and to the bucket store. *)
Inductive Lookup : Type :=
| PoolFind (hash : string)
| StoreGet (hash : uint256).

(** Calls of [BucketLevel::setSnap] and [BucketLevel::setCurr]. *)
Record Commit : Type := mkCommit {
  commitLevel : nat;
  commitSlot : Slot;
  commitBucket : Bucket
}.

(** The work's own mutable members. *)
Record Work : Type := mkWork {
  mApplying : bool;
  mLevel : nat;
  mSnapBucket : option Bucket;
  mCurrBucket : option Bucket;
  mSnapApplicator : option BucketApplicator;
  mCurrApplicator : option BucketApplicator
}.

(** What the work reaches through [mApp]: the live bucket list, the ledger
    database (as the sequence of entries applied to it), the three meters,
    and a record of the calls made to the collaborators. *)
Record Application : Type := mkApp {
  bucketList : list BucketLevel;
  database : list BucketEntry;
  mBucketApplyStart : nat;
  mBucketApplySuccess : nat;
  mBucketApplyFailure : nat;
  assumedStates : list HistoryArchiveState;
  lookups : list Lookup;
  commits : list Commit
}.

Record World : Type := mkWorld {
  work : Work;
  mApp : Application
}.

(** [Work::State]. *)
Inductive State : Type :=
| WORK_PENDING
| WORK_RUNNING
| WORK_SUCCESS
| WORK_FAILURE_RETRY
| WORK_FAILURE_RAISE
| WORK_FAILURE_FATAL.

(** What ends a hook early: an exception, or the failed [assert(b)] of
    [getBucket], which the spec calls MissingBucketError. *)
Inductive Error : Type :=
| RuntimeError
| OutOfRange
| MissingBucketError.

Inductive Res (A : Type) : Type :=
| Ok (a : A)
| Throw (e : Error).
Arguments Ok {A} a.
Arguments Throw {A} e.

(** ** State and error monad of the hooks *)

Definition M (A : Type) : Type := World -> Res (A * World).

Definition ret {A} (a : A) : M A := fun w => Ok (a, w).

Definition throw {A} (e : Error) : M A := fun _ => Throw e.

Definition bind {A B} (c : M A) (k : A -> M B) : M B :=
  fun w => match c w with
           | Ok (a, w') => k a w'
           | Throw e => Throw e
           end.

Definition gets {A} (f : World -> A) : M A := fun w => Ok (f w, w).

Definition modify (f : World -> World) : M unit := fun w => Ok (tt, f w).

Definition when (b : bool) (c : M unit) : M unit := if b then c else ret tt.

#[global] Instance M_ret : MRet M := @ret.
#[global] Instance M_bind : MBind M := fun A B k c => bind c k.

(** ** Field updates *)

Definition onWork (f : Work -> Work) (w : World) : World :=
  mkWorld (f (work w)) (mApp w).

Definition onApp (f : Application -> Application) (w : World) : World :=
  mkWorld (work w) (f (mApp w)).

Definition set_mApplying (b : bool) (k : Work) : Work :=
  mkWork b (mLevel k) (mSnapBucket k) (mCurrBucket k)
         (mSnapApplicator k) (mCurrApplicator k).

Definition set_mLevel (n : nat) (k : Work) : Work :=
  mkWork (mApplying k) n (mSnapBucket k) (mCurrBucket k)
         (mSnapApplicator k) (mCurrApplicator k).

Definition set_snap (b : option Bucket) (a : option BucketApplicator)
    (k : Work) : Work :=
  mkWork (mApplying k) (mLevel k) b (mCurrBucket k) a (mCurrApplicator k).

Definition set_curr (b : option Bucket) (a : option BucketApplicator)
    (k : Work) : Work :=
  mkWork (mApplying k) (mLevel k) (mSnapBucket k) b (mSnapApplicator k) a.

Definition set_bucketList (l : list BucketLevel) (a : Application)
    : Application :=
  mkApp l (database a) (mBucketApplyStart a) (mBucketApplySuccess a)
        (mBucketApplyFailure a) (assumedStates a) (lookups a) (commits a).

Definition set_database (d : list BucketEntry) (a : Application)
    : Application :=
  mkApp (bucketList a) d (mBucketApplyStart a) (mBucketApplySuccess a)
        (mBucketApplyFailure a) (assumedStates a) (lookups a) (commits a).

Definition markStart (a : Application) : Application :=
  mkApp (bucketList a) (database a) (S (mBucketApplyStart a))
        (mBucketApplySuccess a) (mBucketApplyFailure a) (assumedStates a)
        (lookups a) (commits a).

Definition markSuccess (a : Application) : Application :=
  mkApp (bucketList a) (database a) (mBucketApplyStart a)
        (S (mBucketApplySuccess a)) (mBucketApplyFailure a) (assumedStates a)
        (lookups a) (commits a).

Definition markFailure (a : Application) : Application :=
  mkApp (bucketList a) (database a) (mBucketApplyStart a)
        (mBucketApplySuccess a) (S (mBucketApplyFailure a)) (assumedStates a)
        (lookups a) (commits a).

Definition logLookup (l : Lookup) (a : Application) : Application :=
  mkApp (bucketList a) (database a) (mBucketApplyStart a)
        (mBucketApplySuccess a) (mBucketApplyFailure a) (assumedStates a)
        (lookups a ++ [l]) (commits a).

Definition logCommit (c : Commit) (a : Application) : Application :=
  mkApp (bucketList a) (database a) (mBucketApplyStart a)
        (mBucketApplySuccess a) (mBucketApplyFailure a) (assumedStates a)
        (lookups a) (commits a ++ [c]).

(** Modelled from the spec: [BucketManager::assumeState] is not under src/;
    the spec's [installHead(targetState)] publishes the target state as the
    authoritative head, which is recorded here call by call. *)
Definition assumeState (has : HistoryArchiveState) (a : Application)
    : Application :=
  mkApp (bucketList a) (database a) (mBucketApplyStart a)
        (mBucketApplySuccess a) (mBucketApplyFailure a)
        (assumedStates a ++ [has]) (lookups a) (commits a).

(** The head an outside reader sees: the state assumed last, if any. *)
Definition installedHead (a : Application) : option HistoryArchiveState :=
  last (assumedStates a).

(** ** A hex codec *)

Module Hex.

(** Modelled from the spec: crypto/Hex.cpp is not under src/; the spec
    says a hash is "externally represented as hex text". The rendering
    is lower-case, two digits per byte; decoding takes digits of either
    case and wants exactly 32 bytes. *)
Definition hexDigit (n : nat) : ascii :=
  nth n (list_ascii_of_string "0123456789abcdef") "0"%char.

Definition digitValue (c : ascii) : option nat :=
  let n := nat_of_ascii c in
  if (48 <=? n)%nat && (n <=? 57)%nat then Some (n - 48)
  else if (97 <=? n)%nat && (n <=? 102)%nat then Some (n - 87)
  else if (65 <=? n)%nat && (n <=? 70)%nat then Some (n - 55)
  else None.

Fixpoint hexToBin (s : string) : option (list Byte.byte) :=
  match s with
  | EmptyString => Some []
  | String a (String b r) =>
      match digitValue a, digitValue b, hexToBin r with
      | Some hi, Some lo, Some bs =>
          match Byte.of_nat (16 * hi + lo) with
          | Some x => Some (x :: bs)
          | None => None
          end
      | _, _, _ => None
      end
  | String _ EmptyString => None
  end.

Definition hexToBin256 (s : string) : option uint256 :=
  match hexToBin s with
  | Some bs => if (length bs =? 32)%nat then Some bs else None
  | None => None
  end.

Fixpoint binToHex (bs : list Byte.byte) : string :=
  match bs with
  | [] => EmptyString
  | b :: r =>
      let n := Byte.to_nat b in
      String (hexDigit (n / 16)) (String (hexDigit (n mod 16)) (binToHex r))
  end.

End Hex.

(** ** A three-level instance *)

Module Scenario.

Definition hashOf (b : Byte.byte) : uint256 := repeat b 32.

Definition sameHash (x y : uint256) : bool :=
  (length x =? length y)%nat
  && forallb (fun p => Byte.eqb (fst p) (snd p)) (combine x y).

Definition bucketA : Bucket :=
  mkBucket (hashOf Byte.xa1) [LIVEENTRY "a1"; LIVEENTRY "a2"; DEADENTRY "a3"].
Definition bucketB : Bucket :=
  mkBucket (hashOf Byte.xb2) [LIVEENTRY "b1"].
Definition bucketC : Bucket :=
  mkBucket (hashOf Byte.xc3) [LIVEENTRY "c1"; DEADENTRY "c2"].
Definition bucketD : Bucket :=
  mkBucket (hashOf Byte.xd4) [DEADENTRY "d1"].
Definition bucketE : Bucket :=
  mkBucket (hashOf Byte.xe5) [LIVEENTRY "e1"; LIVEENTRY "e2"].
Definition bucketF : Bucket :=
  mkBucket (hashOf Byte.xf6) [LIVEENTRY "f1"].
Definition bucketG : Bucket :=
  mkBucket (hashOf Byte.x7a)
           [LIVEENTRY "g1"; LIVEENTRY "g2"; LIVEENTRY "g3"; DEADENTRY "g4";
            LIVEENTRY "g5"].

Definition hexOf (b : Bucket) : string := Hex.binToHex (getHash b).

(** Level 0 is the finest, level 2 the coarsest. *)
Definition live : list BucketLevel :=
  [mkLevel bucketA bucketB; mkLevel bucketC bucketD; mkLevel bucketE bucketF].

Definition liveApp : Application := mkApp live [] 0 0 0 [] [] [].

(** The store knows the six live buckets, the pool holds the new one. *)
Definition store (h : uint256) : option Bucket :=
  find (fun b => sameHash (getHash b) h)
       [bucketA; bucketB; bucketC; bucketD; bucketE; bucketF].

Definition pool : gmap string (option Bucket) :=
  {[ hexOf bucketG := Some bucketG ]}.

Definition describe (l : BucketLevel) : HistoryStateBucket :=
  mkHSB (hexOf (getCurr l)) (hexOf (getSnap l)).

(** Scenario A: the target is the live state. *)
Definition targetA : HistoryArchiveState := mkHAS (map describe live).

(** Scenario B: only the curr of the coarsest level differs. *)
Definition targetB : HistoryArchiveState :=
  mkHAS [describe (mkLevel bucketA bucketB);
         describe (mkLevel bucketC bucketD);
         describe (mkLevel bucketG bucketF)].

(** A target naming a bucket that nobody holds. *)
Definition missingHex : string := Hex.binToHex (hashOf Byte.x99).

Definition targetD : HistoryArchiveState :=
  mkHAS [describe (mkLevel bucketA bucketB);
         describe (mkLevel bucketC bucketD);
         mkHSB missingHex (hexOf bucketF)].

(** The hash of [bucketE] written in upper case. *)
Definition upperE : string :=
  "E5E5E5E5E5E5E5E5E5E5E5E5E5E5E5E5E5E5E5E5E5E5E5E5E5E5E5E5E5E5E5E5".

(** The hex text of the zero hash. *)
Definition zeroHex : string := Hex.binToHex zeroHash.

Definition idleWorld (l : nat) : World :=
  mkWorld (mkWork false l None None None None) liveApp.

(** Scenario B after the start-of-level hook of level 2. *)
Definition startedWorld : World :=
  mkWorld
    (mkWork true 2 None (Some bucketG) None (Some (makeApplicator bucketG)))
    (mkApp live [] 1 0 0 [] [PoolFind (hexOf bucketG)] []).

(** Scenario B at the end of level 2, before its evaluation. *)
Definition appliedWorld : World :=
  mkWorld
    (mkWork true 2 None (Some bucketG) None (Some (mkApplicator bucketG [])))
    (mkApp live (getEntries bucketG) 1 0 0 [] [PoolFind (hexOf bucketG)] []).

(** Scenario B on the last level, both buckets applied, before the
    evaluation that ends the run. *)
Definition lastWorld : World :=
  mkWorld
    (mkWork true 0 (Some bucketB) (Some bucketA)
            (Some (mkApplicator bucketB [])) (Some (mkApplicator bucketA [])))
    (mkApp [mkLevel bucketA bucketB; mkLevel bucketC bucketD;
            mkLevel bucketG bucketF]
           [] 5 3 0 [] [] []).

(** A target whose coarsest curr is [upperE]: the hash of the live curr
    of level 2, but not its rendering. *)
Definition targetUpper : HistoryArchiveState :=
  mkHAS [describe (mkLevel bucketA bucketB);
         describe (mkLevel bucketC bucketD);
         mkHSB upperE (hexOf bucketF)].

(** A pool that holds [bucketE] under the upper-case text of its hash. *)
Definition upperPool : gmap string (option Bucket) :=
  {[ upperE := Some bucketE ]}.

(** The pool of the scenario with one more entry, under the rendering of
    the hash of [bucketE]. *)
Definition poolWithE : gmap string (option Bucket) :=
  <[ hexOf bucketE := Some bucketG ]> pool.

(** A pool with an entry under a text that is no hex at all. *)
Definition oddPool : gmap string (option Bucket) :=
  {[ "not-a-hash"%string := Some bucketG ]}.

(** A target that describes two levels only. *)
Definition targetShort : HistoryArchiveState :=
  mkHAS [describe (mkLevel bucketA bucketB);
         describe (mkLevel bucketC bucketD)].

End Scenario.

(** ** The work *)

Section ApplyBucketsWork.

(** crypto/Hex.h is not under src/: the hex codec is a parameter.
    [hexToBin256] throws on text that is not 32 hex-encoded bytes. *)
Variable hexToBin256 : string -> option uint256.
Variable binToHex : uint256 -> string.

(** [BucketManager::getBucketByHash]: the persistent store, addressed by
    binary hash; a null pointer when the bucket is unknown. *)
Variable getBucketByHash : uint256 -> option Bucket.

(** [BucketList::kNumLevels], a positive constant of bucket/BucketList.h. *)
Variable kNumLevels : nat.

(** How many entries one [advance] of an applicator applies at most. *)
Variable batchSize : nat.

(** The two constant members of the work: the pool of buckets handed in
    by the caller (shared pointers, so possibly null) and the target. *)
Variable mBuckets : gmap string (option Bucket).
Variable mApplyState : HistoryArchiveState.

(** The members as the constructor leaves them. *)
Definition initialWork : Work :=
  mkWork false (kNumLevels - 1) None None None None.

Definition newWork (a : Application) : World := mkWorld initialWork a.

Definition getBucketLevel (level : nat) : M BucketLevel :=
  fun w => match bucketList (mApp w) !! level with
           | Some l => Ok (l, w)
           | None => Throw OutOfRange
           end.

Definition targetAt (level : nat) : M HistoryStateBucket :=
  match currentBuckets mApplyState !! level with
  | Some i => ret i
  | None => throw OutOfRange
  end.

Definition decodeHash (hash : string) : M uint256 :=
  match hexToBin256 hash with
  | Some x => ret x
  | None => throw RuntimeError
  end.

Definition getBucket (hash : string) : M Bucket :=
  x ← decodeHash hash;
  b ← (if isZero x then ret (Some emptyBucket)
        else
          modify (onApp (logLookup (PoolFind hash))) ;;
          match mBuckets !! hash with
          | Some p => ret p
          | None =>
              y ← decodeHash hash;
              modify (onApp (logLookup (StoreGet y))) ;;
              ret (getBucketByHash y)
          end);
  match b with
  | Some b' => ret b'
  | None => throw MissingBucketError
  end.

Definition onReset : M unit :=
  modify (fun w => mkWorld initialWork (mApp w)).

Definition differs (hex : string) (b : Bucket) : bool :=
  negb (String.eqb hex (binToHex (getHash b))).

Definition startSnap (i : HistoryStateBucket) : M unit :=
  b ← getBucket (snap i);
  modify (onWork (set_snap (Some b) (Some (makeApplicator b)))) ;;
  modify (onWork (set_mApplying true)) ;;
  modify (onApp markStart).

Definition startCurr (i : HistoryStateBucket) : M unit :=
  b ← getBucket (curr i);
  modify (onWork (set_curr (Some b) (Some (makeApplicator b)))) ;;
  modify (onWork (set_mApplying true)) ;;
  modify (onApp markStart).

Definition onStart : M unit :=
  l ← gets (fun w => mLevel (work w));
  level ← getBucketLevel l;
  i ← targetAt l;
  a1 ← gets (fun w => mApplying (work w));
  when (a1 || differs (snap i) (getSnap level)) (startSnap i) ;;
  a2 ← gets (fun w => mApplying (work w));
  when (a2 || differs (curr i) (getCurr level)) (startCurr i).

(** [BucketApplicator::advance]: the next chunk goes to the database. *)
Definition advance (a : BucketApplicator) (db : list BucketEntry)
    : BucketApplicator * list BucketEntry :=
  (mkApplicator (appBucket a) (drop batchSize (appRest a)),
   db ++ take batchSize (appRest a)).

Definition advanceSnap (w : World) : World :=
  match mSnapApplicator (work w) with
  | Some a =>
      let r := advance a (database (mApp w)) in
      onApp (set_database (snd r))
            (onWork (set_snap (mSnapBucket (work w)) (Some (fst r))) w)
  | None => w
  end.

Definition advanceCurr (w : World) : World :=
  match mCurrApplicator (work w) with
  | Some a =>
      let r := advance a (database (mApp w)) in
      onApp (set_database (snd r))
            (onWork (set_curr (mCurrBucket (work w)) (Some (fst r))) w)
  | None => w
  end.

(** [onRun] ends with [scheduleSuccess()], which makes the driver call
    [onSuccess] next. *)
Definition onRun : M unit :=
  sa ← gets (fun w => mSnapApplicator (work w));
  ca ← gets (fun w => mCurrApplicator (work w));
  if active sa then modify advanceSnap
  else if active ca then modify advanceCurr
  else ret tt.

Definition commitSnap (l : nat) : M unit :=
  sb ← gets (fun w => mSnapBucket (work w));
  match sb with
  | Some b =>
      modify (onApp (fun a =>
        logCommit (mkCommit l SNAP b)
          (set_bucketList (alter (setSnap b) l (bucketList a)) a))) ;;
      modify (onApp markSuccess)
  | None => ret tt
  end.

Definition commitCurr (l : nat) : M unit :=
  cb ← gets (fun w => mCurrBucket (work w));
  match cb with
  | Some b =>
      modify (onApp (fun a =>
        logCommit (mkCommit l CURR b)
          (set_bucketList (alter (setCurr b) l (bucketList a)) a))) ;;
      modify (onApp markSuccess)
  | None => ret tt
  end.

(** [logAndUpdateCatchupStatus] only logs and is left out. *)
Definition onSuccess : M State :=
  sa ← gets (fun w => mSnapApplicator (work w));
  ca ← gets (fun w => mCurrApplicator (work w));
  if active sa || active ca then ret WORK_RUNNING
  else
    l ← gets (fun w => mLevel (work w));
    getBucketLevel l ;;
    commitSnap l ;;
    commitCurr l ;;
    modify (onWork (set_snap None None)) ;;
    modify (onWork (set_curr None None)) ;;
    if negb (l =? 0)%nat then
      modify (onWork (set_mLevel (l - 1))) ;;
      ret WORK_PENDING
    else
      modify (onApp (assumeState mApplyState)) ;;
      ret WORK_SUCCESS.

(** Both failure hooks mark the meter and defer to [Work]. *)
Definition onFailureRetry : M unit := modify (onApp markFailure).

Definition onFailureRaise : M unit := modify (onApp markFailure).

(** ** The hooks as seen by the driver *)

Inductive Hook : Type :=
| HReset
| HStart
| HRun
| HSuccess
| HFailureRetry
| HFailureRaise.

(** One external invocation: the hook's state, if it returns one. *)
Definition invoke (h : Hook) : M (option State) :=
  match h with
  | HReset => onReset ;; ret None
  | HStart => onStart ;; ret None
  | HRun => onRun ;; ret None
  | HSuccess => st ← onSuccess; ret (Some st)
  | HFailureRetry => onFailureRetry ;; ret None
  | HFailureRaise => onFailureRaise ;; ret None
  end.

(** Modelled from the spec: the generic task driver (work/Work.cpp) is not
    under src/. It starts a pending work with the start-of-level hook,
    then invokes the step hook, whose [scheduleSuccess] leads to the
    end-of-level evaluation; "running" and "pending" results keep it
    invoking, "success" finalizes. *)
Definition cycle (st : State) : M State :=
  when (match st with WORK_PENDING => true | _ => false end) onStart ;;
  onRun ;;
  onSuccess.

Inductive Outcome : Type :=
| Finished (w : World)
| Aborted (e : Error)
| Stopped (st : State) (w : World)
| OutOfFuel (st : State) (w : World).

Definition continues (st : State) : bool :=
  match st with
  | WORK_PENDING | WORK_RUNNING => true
  | _ => false
  end.

Fixpoint drive (fuel : nat) (st : State) (w : World) : Outcome :=
  match fuel with
  | 0 => OutOfFuel st w
  | S fuel' =>
      match cycle st w with
      | Throw e => Aborted e
      | Ok (WORK_SUCCESS, w') => Finished w'
      | Ok (st', w') =>
          if continues st' then drive fuel' st' w' else Stopped st' w'
      end
  end.

(** A run: a fresh work driven from the pending state. *)
Definition run (fuel : nat) (a : Application) : Outcome :=
  drive fuel WORK_PENDING (newWork a).



(** ** Resolution and the level walk, stated without the stepping *)

(** What [getBucket] yields, as the spec words it: the empty bucket for
    the zero hash, else the pool's bucket, else the store's. *)
Definition resolve (hash : string) : Res Bucket :=
  match hexToBin256 hash with
  | None => Throw RuntimeError
  | Some x =>
      if isZero x then Ok emptyBucket
      else
        match mBuckets !! hash with
        | Some (Some b) => Ok b
        | Some None => Throw MissingBucketError
        | None =>
            match getBucketByHash x with
            | Some b => Ok b
            | None => Throw MissingBucketError
            end
        end
  end.

(** The lookups made on the way. *)
Definition lookupsOf (hash : string) : list Lookup :=
  match hexToBin256 hash with
  | None => []
  | Some x =>
      if isZero x then []
      else
        match mBuckets !! hash with
        | Some _ => [PoolFind hash]
        | None => [PoolFind hash; StoreGet x]
        end
  end.

Definition noteLookups (ls : list Lookup) (w : World) : World :=
  fold_left (fun w' l => onApp (logLookup l) w') ls w.

(** Both applicators run to their end in one go. *)
Definition finish (o : option BucketApplicator) : option BucketApplicator :=
  match o with
  | Some a => Some (mkApplicator (appBucket a) [])
  | None => None
  end.

Definition exhaust (w : World) : World :=
  let k := work w in
  mkWorld
    (mkWork (mApplying k) (mLevel k) (mSnapBucket k) (mCurrBucket k)
            (finish (mSnapApplicator k)) (finish (mCurrApplicator k)))
    (set_database
       (database (mApp w) ++ rest (mSnapApplicator k)
                          ++ rest (mCurrApplicator k))
       (mApp w)).

(** One level as a whole: start it, apply all of it, evaluate it. *)
Definition wholeLevel : M State :=
  onStart ;;
  modify exhaust ;;
  onSuccess.

(** The walk over the levels, one [wholeLevel] per level. *)
Fixpoint walk (levels : nat) (w : World) : Outcome :=
  match levels with
  | 0 => OutOfFuel WORK_PENDING w
  | S levels' =>
      match wholeLevel w with
      | Throw e => Aborted e
      | Ok (WORK_SUCCESS, w') => Finished w'
      | Ok (WORK_PENDING, w') => walk levels' w'
      | Ok (st', w') => Stopped st' w'
      end
  end.

(** The work holds no bucket and no applicator: as constructed, after a
    reset and after every end-of-level transition. *)
Definition idle (k : Work) : Prop :=
  mSnapBucket k = None /\ mCurrBucket k = None
  /\ mSnapApplicator k = None /\ mCurrApplicator k = None.

(** The start-of-level tests of [onStart] at level [l]. *)
Definition snapDiffers (bl : list BucketLevel) (l : nat) : Prop :=
  exists lev i, bl !! l = Some lev
    /\ currentBuckets mApplyState !! l = Some i
    /\ snap i <> binToHex (getHash (getSnap lev)).

Definition currDiffers (bl : list BucketLevel) (l : nat) : Prop :=
  exists lev i, bl !! l = Some lev
    /\ currentBuckets mApplyState !! l = Some i
    /\ curr i <> binToHex (getHash (getCurr lev)).

(** Every level of the live list carries the target's two hex hashes. *)
Definition matchesTarget (bl : list BucketLevel) : Prop :=
  forall l lev, bl !! l = Some lev ->
    exists i, currentBuckets mApplyState !! l = Some i
      /\ snap i = binToHex (getHash (getSnap lev))
      /\ curr i = binToHex (getHash (getCurr lev)).

(** Level [l] was given, by [setSnap] and [setCurr], the buckets that
    the target's hashes resolve to, and holds them. *)
Definition replacedAt (a : Application) (l : nat) : Prop :=
  exists i bs bc, currentBuckets mApplyState !! l = Some i
    /\ resolve (snap i) = Ok bs /\ resolve (curr i) = Ok bc
    /\ bucketList a !! l = Some (mkLevel bc bs)
    /\ In (mkCommit l SNAP bs) (commits a)
    /\ In (mkCommit l CURR bc) (commits a).

(** The worlds an outside driver can bring about: a fresh work, then
    any hooks in any order. *)
Inductive reachable : World -> Prop :=
| reach_new (a : Application) : reachable (newWork a)
| reach_invoke (h : Hook) (w w' : World) (r : option State) :
    reachable w -> invoke h w = Ok (r, w') -> reachable w'.

(** The curr applicator has not moved yet. *)
Definition untouched (o : option BucketApplicator) : Prop :=
  match o with
  | Some a => appRest a = getEntries (appBucket a)
  | None => True
  end.

(** While the snap applicator has work, the curr one has not begun. *)
Definition snapFirst (k : Work) : Prop :=
  active (mSnapApplicator k) = true -> untouched (mCurrApplicator k).

(** The application side after the commits of an end-of-level
    transition at level [l], for the buckets held by the work. *)
Definition commitOne (l : nat) (s : Slot) (o : option Bucket)
    (a : Application) : Application :=
  match o with
  | Some b =>
      markSuccess
        (logCommit (mkCommit l s b)
           (set_bucketList
              (alter (match s with SNAP => setSnap b | CURR => setCurr b end)
                     l (bucketList a)) a))
  | None => a
  end.

Definition committed (l : nat) (k : Work) (a : Application) : Application :=
  commitOne l CURR (mCurrBucket k) (commitOne l SNAP (mSnapBucket k) a).

(** How a walk goes on after the evaluation of a level. *)
Definition resume (levels : nat) (r : Res (State * World)) : Outcome :=
  match r with
  | Throw e => Aborted e
  | Ok (WORK_SUCCESS, w') => Finished w'
  | Ok (WORK_PENDING, w') => walk levels w'
  | Ok (st', w') => Stopped st' w'
  end.

(** How the driver goes on after a cycle. *)
Definition proceed (fuel : nat) (r : Res (State * World)) : Outcome :=
  match r with
  | Throw e => Aborted e
  | Ok (WORK_SUCCESS, w') => Finished w'
  | Ok (st', w') =>
      if continues st' then drive fuel st' w' else Stopped st' w'
  end.

(** The bucket a start-of-level test leaves in the work: the resolved
    one when the test fires, none otherwise. *)
Definition planned (need : bool) (hash : string) (o : option Bucket)
    : Prop :=
  match o with
  | Some b => need = true /\ resolve hash = Ok b
  | None => need = false
  end.

Definition commitsOf (l : nat) (s : Slot) (o : option Bucket)
    : list Commit :=
  match o with
  | Some b => [mkCommit l s b]
  | None => []
  end.

Definition entriesOf (o : option Bucket) : list BucketEntry :=
  match o with
  | Some b => getEntries b
  | None => []
  end.

Definition count (o : option Bucket) : nat :=
  match o with
  | Some _ => 1
  | None => 0
  end.

(** The entries the two applicators have still to apply. *)
Definition backlog (w : World) : nat :=
  length (rest (mSnapApplicator (work w)))
  + length (rest (mCurrApplicator (work w))).

(** Every hash of the target's first [n] levels resolves. *)
Definition resolvable (n : nat) : Prop :=
  forall l, l < n ->
    exists i bs bc, currentBuckets mApplyState !! l = Some i
      /\ resolve (snap i) = Ok bs /\ resolve (curr i) = Ok bc.

(** An idle work with cursor [l] and flag [a] over application [ap]. *)
Definition idleAt (a : bool) (l : nat) (ap : Application) : World :=
  mkWorld (mkWork a l None None None None) ap.

(** The entries of the committed buckets, in the order of the commits. *)
Definition appliedBy (cs : list Commit) : list BucketEntry :=
  flat_map (fun c => getEntries (commitBucket c)) cs.

(** The order of the level walk: a coarser level first, and on one level
    the snap bucket before the curr bucket. *)
Definition commitBefore (c1 c2 : Commit) : Prop :=
  commitLevel c2 < commitLevel c1
  \/ (commitLevel c1 = commitLevel c2
      /\ commitSlot c1 = SNAP /\ commitSlot c2 = CURR).

(** The buckets that the pool and the store give for the target's hashes
    carry those hashes: content addressing, as far as the target goes. *)
Definition faithful : Prop :=
  forall l i, currentBuckets mApplyState !! l = Some i ->
    (forall b, resolve (snap i) = Ok b -> snap i = binToHex (getHash b))
    /\ (forall b, resolve (curr i) = Ok b -> curr i = binToHex (getHash b)).

(** Where a commit stands in the level walk, counted from its end. *)
Definition commitRank (c : Commit) : nat :=
  2 * commitLevel c + match commitSlot c with SNAP => 1 | CURR => 0 end.

(** A slot of the work: no bucket and no applicator, or a bucket with an
    applicator over it that has some tail of its entries left. *)
Definition paired (ob : option Bucket) (oa : option BucketApplicator)
    : Prop :=
  match ob, oa with
  | None, None => True
  | Some b, Some a =>
      appBucket a = b
      /\ exists done, getEntries b = done ++ appRest a
  | _, _ => False
  end.

Definition slotsPaired (k : Work) : Prop :=
  paired (mSnapBucket k) (mSnapApplicator k)
  /\ paired (mCurrBucket k) (mCurrApplicator k).

(** The world after the body of the snap test of [onStart], for the
    resolved bucket [b]: bucket and applicator held, flag set, start
    meter marked. *)
Definition withSnap (b : Bucket) (w : World) : World :=
  onApp markStart
    (onWork (set_mApplying true)
       (onWork (set_snap (Some b) (Some (makeApplicator b))) w)).

(** The same for the curr test. *)
Definition withCurr (b : Bucket) (w : World) : World :=
  onApp markStart
    (onWork (set_mApplying true)
       (onWork (set_curr (Some b) (Some (makeApplicator b))) w)).

(** ** Monad bookkeeping *)

Ltac unmonad :=
  unfold when in *;
  unfold mbind, M_bind, mret, M_ret, bind, ret, throw, gets, modify in *.

Lemma noteLookups_work ls w : work (noteLookups ls w) = work w.
Proof.
  revert w; induction ls as [|l ls IH]; intros w; simpl; [reflexivity|].
  rewrite IH. reflexivity.
Qed.

Lemma noteLookups_app ls w :
  mApp (noteLookups ls w)
  = mkApp (bucketList (mApp w)) (database (mApp w))
          (mBucketApplyStart (mApp w)) (mBucketApplySuccess (mApp w))
          (mBucketApplyFailure (mApp w)) (assumedStates (mApp w))
          (lookups (mApp w) ++ ls) (commits (mApp w)).
Proof.
  revert w; induction ls as [|l ls IH]; intros w; simpl.
  - rewrite app_nil_r. destruct w as [k []]; reflexivity.
  - rewrite IH. simpl. rewrite <- app_assoc. reflexivity.
Qed.

(** [getBucket] yields what [resolve] says and only notes its lookups. *)
Lemma getBucket_resolve hash w :
  getBucket hash w
  = match resolve hash with
    | Ok b => Ok (b, noteLookups (lookupsOf hash) w)
    | Throw e => Throw e
    end.
Proof.
  unfold getBucket, resolve, lookupsOf, decodeHash. unmonad.
  destruct (hexToBin256 hash) as [x|]; [|reflexivity].
  destruct (isZero x); [reflexivity|].
  destruct (mBuckets !! hash) as [[b|]|]; simpl; try reflexivity.
  destruct (getBucketByHash x); reflexivity.
Qed.


Lemma startSnap_resolve i w :
  startSnap i w
  = match resolve (snap i) with
    | Ok b =>
        Ok (tt, onApp markStart
                  (onWork (set_mApplying true)
                     (onWork (set_snap (Some b) (Some (makeApplicator b)))
                        (noteLookups (lookupsOf (snap i)) w))))
    | Throw e => Throw e
    end.
Proof.
  unfold startSnap. unmonad. rewrite getBucket_resolve.
  destruct (resolve (snap i)); reflexivity.
Qed.

Lemma startCurr_resolve i w :
  startCurr i w
  = match resolve (curr i) with
    | Ok b =>
        Ok (tt, onApp markStart
                  (onWork (set_mApplying true)
                     (onWork (set_curr (Some b) (Some (makeApplicator b)))
                        (noteLookups (lookupsOf (curr i)) w))))
    | Throw e => Throw e
    end.
Proof.
  unfold startCurr. unmonad. rewrite getBucket_resolve.
  destruct (resolve (curr i)); reflexivity.
Qed.

(** [onStart] once the level and its target entry are known. *)
Lemma onStart_at w lev i :
  bucketList (mApp w) !! mLevel (work w) = Some lev ->
  currentBuckets mApplyState !! mLevel (work w) = Some i ->
  onStart w
  = match (if mApplying (work w) || differs (snap i) (getSnap lev)
           then startSnap i w else Ok (tt, w)) with
    | Ok (_, w1) =>
        if mApplying (work w1) || differs (curr i) (getCurr lev)
        then startCurr i w1 else Ok (tt, w1)
    | Throw e => Throw e
    end.
Proof.
  intros Hlev Hi. unfold onStart, getBucketLevel, targetAt. unmonad.
  rewrite Hlev, Hi.
  destruct (mApplying (work w) || differs (snap i) (getSnap lev));
    [destruct (startSnap i w) as [[[] w1]|]; [|reflexivity]|];
    unfold ret;
    match goal with
    | |- context [if ?c then _ else _] => destruct c; reflexivity
    end.
Qed.

Lemma onStart_out_of_range w :
  bucketList (mApp w) !! mLevel (work w) = None
  \/ currentBuckets mApplyState !! mLevel (work w) = None ->
  onStart w = Throw OutOfRange.
Proof.
  intros H. unfold onStart, getBucketLevel, targetAt. unmonad.
  destruct (bucketList (mApp w) !! mLevel (work w)); [|reflexivity].
  destruct H as [H|H]; [discriminate|]. rewrite H. reflexivity.
Qed.

Lemma differs_true hex b :
  differs hex b = true <-> hex <> binToHex (getHash b).
Proof.
  unfold differs. rewrite negb_true_iff. apply String.eqb_neq.
Qed.

Lemma differs_false hex b :
  differs hex b = false <-> hex = binToHex (getHash b).
Proof.
  unfold differs. rewrite negb_false_iff. apply String.eqb_eq.
Qed.

(** A start-of-level hook that throws ends the run at once. *)
Lemma drive_start_throws fuel w e :
  onStart w = Throw e -> drive (S fuel) WORK_PENDING w = Aborted e.
Proof.
  intros H. simpl. unfold cycle. unmonad. rewrite H. reflexivity.
Qed.

(** ** Bucket resolution *)

(** C8, zero-hash sentinel: a hex text that decodes to the all-zero hash
    resolves to the canonical empty bucket; the world comes back as it
    was, so no lookup is made in the pool or in the store, whatever they
    hold. *)
Theorem zero_hash_sentinel (hash : string) (x : uint256) (w : World) :
  hexToBin256 hash = Some x ->
  isZero x = true ->
  getBucket hash w = Ok (emptyBucket, w)
  /\ lookupsOf hash = []
  /\ getEntries emptyBucket = []
  /\ isZero (getHash emptyBucket) = true.
Proof.
  intros Hx Hz. repeat split.
  - rewrite getBucket_resolve. unfold resolve, lookupsOf.
    rewrite Hx, Hz. reflexivity.
  - unfold lookupsOf. rewrite Hx, Hz. reflexivity.
Qed.

(** C2, missing-data fatality: a non-zero hash held neither by the pool
    nor by the store makes [getBucket] fail its assertion instead of
    yielding any bucket, and a start-of-level hook that has to resolve
    it ends the run with that error in the same cycle. *)
Theorem missing_bucket_fatal (hash : string) (x : uint256) :
  hexToBin256 hash = Some x ->
  isZero x = false ->
  mBuckets !! hash = None ->
  getBucketByHash x = None ->
  (forall w, getBucket hash w = Throw MissingBucketError)
  /\ resolve hash = Throw MissingBucketError
  /\ (forall w lev i fuel,
        bucketList (mApp w) !! mLevel (work w) = Some lev ->
        currentBuckets mApplyState !! mLevel (work w) = Some i ->
        let needSnap :=
          mApplying (work w) || differs (snap i) (getSnap lev) in
        (needSnap = true /\ snap i = hash)
        \/ (needSnap = false
            /\ differs (curr i) (getCurr lev) = true /\ curr i = hash)
        \/ (needSnap = true
            /\ (exists b, resolve (snap i) = Ok b) /\ curr i = hash) ->
        onStart w = Throw MissingBucketError
        /\ drive (S fuel) WORK_PENDING w = Aborted MissingBucketError).
Proof.
  intros Hx Hz Hp Hs.
  assert (Hr : resolve hash = Throw MissingBucketError).
  { unfold resolve. rewrite Hx, Hz, Hp, Hs. reflexivity. }
  split; [|split]; [|exact Hr|].
  - intros w. rewrite getBucket_resolve, Hr. reflexivity.
  - intros w lev i fuel Hlev Hi needSnap Hcase.
    assert (Hstart : onStart w = Throw MissingBucketError).
    { rewrite (onStart_at w lev i Hlev Hi). fold needSnap.
      destruct Hcase as [[Hn He]|[[Hn [Hd He]]|[Hn [[b Hb] He]]]];
        rewrite Hn.
      - rewrite startSnap_resolve, He, Hr. reflexivity.
      - destruct (mApplying (work w)); [discriminate|].
        simpl. rewrite Hd, startCurr_resolve, He, Hr. reflexivity.
      - rewrite startSnap_resolve, Hb. simpl.
        rewrite startCurr_resolve, He, Hr. reflexivity. }
    split; [exact Hstart|]. apply drive_start_throws, Hstart.
Qed.

(** ** Reset *)

(** C6, reset safety: a reset puts the cursor back on the coarsest
    level, clears the flag and drops the buckets and applicators in
    flight; the application side, with every level of the live bucket
    list, stays as it was. *)
Theorem reset_safety (w : World) :
  exists w',
    onReset w = Ok (tt, w')
    /\ mLevel (work w') = kNumLevels - 1
    /\ mApplying (work w') = false
    /\ idle (work w')
    /\ mApp w' = mApp w
    /\ forall l, bucketList (mApp w') !! l = bucketList (mApp w) !! l.
Proof.
  exists (mkWorld initialWork (mApp w)). unfold idle. simpl. tauto.
Qed.

(** After a reset the work is as constructed, over the application as
    it then is: what follows is a run of its own. *)
Lemma onReset_newWork w : onReset w = Ok (tt, newWork (mApp w)).
Proof. reflexivity. Qed.


(** ** Frames of the hooks *)

(** What the start-of-level hook leaves alone. *)
Lemma onStart_frame w u w' :
  onStart w = Ok (u, w') ->
  bucketList (mApp w') = bucketList (mApp w)
  /\ database (mApp w') = database (mApp w)
  /\ assumedStates (mApp w') = assumedStates (mApp w)
  /\ commits (mApp w') = commits (mApp w)
  /\ mBucketApplySuccess (mApp w') = mBucketApplySuccess (mApp w)
  /\ mLevel (work w') = mLevel (work w).
Proof.
  destruct (bucketList (mApp w) !! mLevel (work w)) as [lev|] eqn:Hlev;
    [|rewrite onStart_out_of_range by (left; exact Hlev); discriminate].
  destruct (currentBuckets mApplyState !! mLevel (work w)) as [i|] eqn:Hi;
    [|rewrite onStart_out_of_range by (right; exact Hi); discriminate].
  rewrite (onStart_at w lev i Hlev Hi).
  destruct (mApplying (work w) || differs (snap i) (getSnap lev)).
  - rewrite startSnap_resolve.
    destruct (resolve (snap i)) as [bs|]; [|discriminate]. simpl.
    rewrite startCurr_resolve.
    destruct (resolve (curr i)) as [bc|]; [|discriminate].
    intros [= _ <-]. simpl. rewrite !noteLookups_work, !noteLookups_app.
    simpl. rewrite !noteLookups_work, !noteLookups_app. simpl. tauto.
  - destruct (mApplying (work w) || differs (curr i) (getCurr lev)).
    + rewrite startCurr_resolve.
      destruct (resolve (curr i)) as [bc|]; [|discriminate].
      intros [= _ <-]. simpl. rewrite !noteLookups_work, !noteLookups_app.
      simpl. tauto.
    + intros [= _ <-]. tauto.
Qed.

Lemma onRun_cases w :
  onRun w
  = Ok (tt, if active (mSnapApplicator (work w)) then advanceSnap w
            else if active (mCurrApplicator (work w)) then advanceCurr w
            else w).
Proof.
  unfold onRun. unmonad.
  destruct (active (mSnapApplicator (work w))); [reflexivity|].
  destruct (active (mCurrApplicator (work w))); reflexivity.
Qed.

Lemma onRun_frame w u w' :
  onRun w = Ok (u, w') ->
  bucketList (mApp w') = bucketList (mApp w)
  /\ assumedStates (mApp w') = assumedStates (mApp w)
  /\ commits (mApp w') = commits (mApp w)
  /\ mLevel (work w') = mLevel (work w)
  /\ mApplying (work w') = mApplying (work w)
  /\ mSnapBucket (work w') = mSnapBucket (work w)
  /\ mCurrBucket (work w') = mCurrBucket (work w).
Proof.
  rewrite onRun_cases. intros [= _ <-].
  unfold advanceSnap, advanceCurr.
  destruct (active (mSnapApplicator (work w)));
    [destruct (mSnapApplicator (work w)); simpl; tauto|].
  destruct (active (mCurrApplicator (work w)));
    [destruct (mCurrApplicator (work w)); simpl; tauto|tauto].
Qed.

(** The evaluation while an applicator still has work. *)
Lemma onSuccess_running w :
  active (mSnapApplicator (work w)) || active (mCurrApplicator (work w))
    = true ->
  onSuccess w = Ok (WORK_RUNNING, w).
Proof. intros H. unfold onSuccess. unmonad. rewrite H. reflexivity. Qed.

Lemma alter_at {A} (f : A -> A) (l : list A) (n : nat) (x : A) :
  l !! n = Some x -> alter f n l = <[n := f x]> l.
Proof.
  revert n; induction l as [|y l IH]; intros [|n]; simpl; try discriminate.
  - intros [= ->]. reflexivity.
  - intros H. f_equal. apply IH, H.
Qed.


(** The evaluation once both applicators are exhausted. *)
Lemma onSuccess_done w lev :
  active (mSnapApplicator (work w)) = false ->
  active (mCurrApplicator (work w)) = false ->
  bucketList (mApp w) !! mLevel (work w) = Some lev ->
  onSuccess w
  = let l := mLevel (work w) in
    let a := committed l (work w) (mApp w) in
    Ok (if (l =? 0)%nat then WORK_SUCCESS else WORK_PENDING,
        mkWorld (mkWork (mApplying (work w)) (l - 1) None None None None)
                (if (l =? 0)%nat then assumeState mApplyState a else a)).
Proof.
  intros Hs Hc Hlev.
  unfold onSuccess, getBucketLevel, commitSnap, commitCurr. unmonad.
  rewrite Hs, Hc. simpl. rewrite Hlev.
  destruct w as [[a l sb cb sa ca] ap]. simpl in *.
  unfold committed, commitOne. simpl.
  destruct sb as [bs|], cb as [bc|], l as [|l]; simpl;
    rewrite ?Nat.sub_0_r; reflexivity.
Qed.

Lemma onSuccess_out_of_range w :
  active (mSnapApplicator (work w)) = false ->
  active (mCurrApplicator (work w)) = false ->
  bucketList (mApp w) !! mLevel (work w) = None ->
  onSuccess w = Throw OutOfRange.
Proof.
  intros Hs Hc Hlev. unfold onSuccess, getBucketLevel. unmonad.
  rewrite Hs, Hc. simpl. rewrite Hlev. reflexivity.
Qed.

Lemma commitOne_frame l s o a :
  database (commitOne l s o a) = database a
  /\ assumedStates (commitOne l s o a) = assumedStates a
  /\ lookups (commitOne l s o a) = lookups a
  /\ mBucketApplyStart (commitOne l s o a) = mBucketApplyStart a
  /\ length (bucketList (commitOne l s o a)) = length (bucketList a)
  /\ forall j, j <> l ->
       bucketList (commitOne l s o a) !! j = bucketList a !! j.
Proof.
  destruct o as [b|]; simpl; repeat split; try reflexivity.
  - apply length_alter.
  - intros j Hj. apply list_lookup_alter_ne. congruence.
Qed.

Lemma committed_frame l k a :
  database (committed l k a) = database a
  /\ assumedStates (committed l k a) = assumedStates a
  /\ lookups (committed l k a) = lookups a
  /\ mBucketApplyStart (committed l k a) = mBucketApplyStart a
  /\ length (bucketList (committed l k a)) = length (bucketList a)
  /\ forall j, j <> l ->
       bucketList (committed l k a) !! j = bucketList a !! j.
Proof.
  unfold committed.
  destruct (commitOne_frame l SNAP (mSnapBucket k) a)
    as (H1 & H2 & H3 & H4 & H5 & H6).
  destruct (commitOne_frame l CURR (mCurrBucket k)
              (commitOne l SNAP (mSnapBucket k) a))
    as (G1 & G2 & G3 & G4 & G5 & G6).
  repeat split; try congruence.
  intros j Hj. rewrite G6, H6 by exact Hj. reflexivity.
Qed.

(** One tactic for the three outcomes of the end-of-level evaluation. *)
Ltac success_cases w H :=
  let Hs := fresh "Hs" in
  let Hc := fresh "Hc" in
  let Hlev := fresh "Hlev" in
  let lev := fresh "lev" in
  destruct (active (mSnapApplicator (work w))) eqn:Hs;
    [rewrite onSuccess_running in H by (rewrite Hs; reflexivity)|
     destruct (active (mCurrApplicator (work w))) eqn:Hc;
     [rewrite onSuccess_running in H
        by (rewrite Hs, Hc; reflexivity)|
      destruct (bucketList (mApp w) !! mLevel (work w)) as [lev|] eqn:Hlev;
      [rewrite (onSuccess_done w lev Hs Hc Hlev) in H|
       rewrite (onSuccess_out_of_range w Hs Hc Hlev) in H]]].

(** ** Commit points *)

(** C4, commit atomicity per level: an invocation that changes the
    bucket list is an end-of-level evaluation with both applicators
    exhausted, and it changes the cursor's level only; the step hook
    never changes the list, and an evaluation with work remaining
    answers "running" and leaves the world as it is. *)
Theorem commit_atomicity (h : Hook) (w w' : World) (r : option State) :
  invoke h w = Ok (r, w') ->
  (bucketList (mApp w') <> bucketList (mApp w) ->
     h = HSuccess
     /\ active (mSnapApplicator (work w)) = false
     /\ active (mCurrApplicator (work w)) = false
     /\ r <> Some WORK_RUNNING)
  /\ (h = HRun -> bucketList (mApp w') = bucketList (mApp w))
  /\ (h = HSuccess ->
      active (mSnapApplicator (work w))
        || active (mCurrApplicator (work w)) = true ->
      r = Some WORK_RUNNING /\ w' = w)
  /\ (forall l, l <> mLevel (work w) ->
        bucketList (mApp w') !! l = bucketList (mApp w) !! l).
Proof.
  intros H.
  destruct h; simpl in H; unmonad.
  - injection H as <- <-. simpl. repeat split; congruence.
  - destruct (onStart w) as [[u w1]|] eqn:Hst; [|discriminate].
    injection H as <- <-. destruct (onStart_frame _ _ _ Hst) as [Hbl _].
    repeat split; congruence.
  - destruct (onRun w) as [[u w1]|] eqn:Hrun; [|discriminate].
    injection H as <- <-. destruct (onRun_frame _ _ _ Hrun) as [Hbl _].
    repeat split; congruence.
  - destruct (onSuccess w) as [[st w1]|] eqn:Hsu; [|discriminate].
    injection H as <- <-.
    success_cases w Hsu; try discriminate;
      try (injection Hsu as <- <-; repeat split; congruence).
    simpl in Hsu. injection Hsu as <- <-. simpl.
    split; [|split; [|split]].
    + intros _. repeat split; try reflexivity.
      destruct (mLevel (work w) =? 0)%nat; discriminate.
    + discriminate.
    + intros _ Hf. discriminate Hf.
    + intros l Hl.
      destruct (committed_frame (mLevel (work w)) (work w) (mApp w))
        as (_ & _ & _ & _ & _ & Hbl).
      destruct (mLevel (work w) =? 0)%nat; simpl; apply Hbl, Hl.
  - injection H as <- <-. simpl. repeat split; congruence.
  - injection H as <- <-. simpl. repeat split; congruence.
Qed.


(** ** The step hook *)

Lemma active_false_rest o : active o = false -> rest o = [].
Proof.
  destruct o as [[b [|e r]]|]; simpl; unfold hasWork; simpl;
    intros H; try reflexivity; discriminate.
Qed.

Lemma snapFirst_start w u w' :
  snapFirst (work w) -> onStart w = Ok (u, w') -> snapFirst (work w').
Proof.
  intros Hinv.
  destruct (bucketList (mApp w) !! mLevel (work w)) as [lev|] eqn:Hlev;
    [|rewrite onStart_out_of_range by (left; exact Hlev); discriminate].
  destruct (currentBuckets mApplyState !! mLevel (work w)) as [i|] eqn:Hi;
    [|rewrite onStart_out_of_range by (right; exact Hi); discriminate].
  rewrite (onStart_at w lev i Hlev Hi).
  destruct (mApplying (work w) || differs (snap i) (getSnap lev)).
  - rewrite startSnap_resolve.
    destruct (resolve (snap i)) as [bs|]; [|discriminate]. simpl.
    rewrite startCurr_resolve.
    destruct (resolve (curr i)) as [bc|]; [|discriminate].
    intros [= _ <-]. unfold snapFirst. simpl. reflexivity.
  - destruct (mApplying (work w) || differs (curr i) (getCurr lev)).
    + rewrite startCurr_resolve.
      destruct (resolve (curr i)) as [bc|]; [|discriminate].
      intros [= _ <-]. unfold snapFirst. simpl. reflexivity.
    + intros [= _ <-]. exact Hinv.
Qed.

Lemma snapFirst_run w u w' :
  snapFirst (work w) -> onRun w = Ok (u, w') -> snapFirst (work w').
Proof.
  intros Hinv. rewrite onRun_cases. intros [= _ <-]. unfold snapFirst in *.
  destruct (active (mSnapApplicator (work w))) eqn:Hs.
  - unfold advanceSnap.
    destruct (mSnapApplicator (work w)); simpl; intros _; apply Hinv;
      reflexivity.
  - destruct (active (mCurrApplicator (work w))) eqn:Hc.
    + unfold advanceCurr.
      destruct (mCurrApplicator (work w)); simpl; rewrite Hs; discriminate.
    + rewrite Hs. discriminate.
Qed.

Lemma snapFirst_success w st w' :
  snapFirst (work w) -> onSuccess w = Ok (st, w') -> snapFirst (work w').
Proof.
  intros Hinv H. success_cases w H; try discriminate;
    try (injection H as <- <-; exact Hinv).
  simpl in H. injection H as <- <-. unfold snapFirst. simpl. discriminate.
Qed.

(** In every reachable world the curr applicator has not begun while
    the snap applicator has work. *)
Lemma reachable_snapFirst w : reachable w -> snapFirst (work w).
Proof.
  induction 1 as [a|h w w' r Hr IH H].
  - unfold snapFirst. simpl. discriminate.
  - destruct h; simpl in H; unmonad.
    + injection H as <- <-. unfold snapFirst. simpl. discriminate.
    + destruct (onStart w) as [[u w1]|] eqn:E; [|discriminate].
      injection H as <- <-. eapply snapFirst_start; eauto.
    + destruct (onRun w) as [[u w1]|] eqn:E; [|discriminate].
      injection H as <- <-. eapply snapFirst_run; eauto.
    + destruct (onSuccess w) as [[u w1]|] eqn:E; [|discriminate].
      injection H as <- <-. eapply snapFirst_success; eauto.
    + injection H as <- <-. exact IH.
    + injection H as <- <-. exact IH.
Qed.

(** C5, step ordering and bound: one invocation of the step hook moves
    at most one applicator, by one chunk of at most [batchSize] entries
    appended to the database, the snap applicator whenever it has work;
    and in every reachable world the curr applicator has not begun as
    long as the snap applicator has work. *)
Theorem step_ordering_and_bound (w : World) :
  exists w',
    onRun w = Ok (tt, w')
    /\ (active (mSnapApplicator (work w)) = true ->
        mCurrApplicator (work w') = mCurrApplicator (work w)
        /\ rest (mSnapApplicator (work w'))
           = drop batchSize (rest (mSnapApplicator (work w)))
        /\ database (mApp w')
           = database (mApp w)
             ++ take batchSize (rest (mSnapApplicator (work w))))
    /\ (active (mSnapApplicator (work w)) = false ->
        mSnapApplicator (work w') = mSnapApplicator (work w)
        /\ rest (mCurrApplicator (work w'))
           = drop batchSize (rest (mCurrApplicator (work w)))
        /\ database (mApp w')
           = database (mApp w)
             ++ take batchSize (rest (mCurrApplicator (work w))))
    /\ (mSnapApplicator (work w') = mSnapApplicator (work w)
        \/ mCurrApplicator (work w') = mCurrApplicator (work w))
    /\ (exists chunk, database (mApp w') = database (mApp w) ++ chunk
                      /\ length chunk <= batchSize)
    /\ (reachable w -> snapFirst (work w) /\ snapFirst (work w')).
Proof.
  eexists. split; [apply onRun_cases|].
  assert (Hlen : forall l : list BucketEntry,
            length (take batchSize l) <= batchSize).
  { intros l. rewrite length_take. lia. }
  destruct (active (mSnapApplicator (work w))) eqn:Hs.
  - unfold advanceSnap.
    destruct (mSnapApplicator (work w)) as [a|] eqn:Ha; [|discriminate].
    simpl. repeat split; try discriminate; try reflexivity.
    + right. reflexivity.
    + eexists. split; [reflexivity|apply Hlen].
    + apply reachable_snapFirst, H.
    + intros _. apply (reachable_snapFirst w H). rewrite Ha. exact Hs.
  - destruct (active (mCurrApplicator (work w))) eqn:Hc.
    + unfold advanceCurr.
      destruct (mCurrApplicator (work w)) as [a|] eqn:Ha; [|discriminate].
      simpl. repeat split; try discriminate; try reflexivity.
      * left. reflexivity.
      * eexists. split; [reflexivity|apply Hlen].
      * apply reachable_snapFirst, H.
      * unfold snapFirst. simpl. rewrite Hs. discriminate.
    + rewrite (active_false_rest _ Hc).
      repeat split; try discriminate; try reflexivity.
      * rewrite drop_nil. reflexivity.
      * rewrite take_nil, app_nil_r. reflexivity.
      * left. reflexivity.
      * exists []. rewrite app_nil_r. split; [reflexivity|simpl; lia].
      * apply reachable_snapFirst, H.
      * apply reachable_snapFirst, H.
Qed.


(** ** Stepping through a level against applying it whole *)

Lemma drive_S fuel st w :
  drive (S fuel) st w = proceed fuel (cycle st w).
Proof.
  simpl. unfold proceed. destruct (cycle st w) as [[[] w']|]; reflexivity.
Qed.

Lemma walk_S n w : walk (S n) w = resume n (wholeLevel w).
Proof. reflexivity. Qed.

Lemma cycle_running w :
  cycle WORK_RUNNING w
  = onSuccess (if active (mSnapApplicator (work w)) then advanceSnap w
               else if active (mCurrApplicator (work w)) then advanceCurr w
               else w).
Proof.
  unfold cycle. unmonad. rewrite onRun_cases. reflexivity.
Qed.

Lemma cycle_pending w :
  cycle WORK_PENDING w
  = match onStart w with
    | Ok (_, w1) => cycle WORK_RUNNING w1
    | Throw e => Throw e
    end.
Proof.
  unfold cycle. unmonad. destruct (onStart w) as [[u w1]|]; reflexivity.
Qed.

Lemma wholeLevel_eq w :
  wholeLevel w
  = match onStart w with
    | Ok (_, w1) => onSuccess (exhaust w1)
    | Throw e => Throw e
    end.
Proof.
  unfold wholeLevel. unmonad. destruct (onStart w) as [[u w1]|]; reflexivity.
Qed.

Lemma exhaust_settled w :
  active (mSnapApplicator (work w)) = false ->
  active (mCurrApplicator (work w)) = false ->
  exhaust w = w.
Proof.
  intros Hs Hc. unfold exhaust.
  rewrite (active_false_rest _ Hs), (active_false_rest _ Hc).
  destruct w as [[a l sb cb sa ca] [bl db m1 m2 m3 hs ls cs]]. simpl in *.
  rewrite app_nil_r.
  destruct sa as [[b1 [|]]|], ca as [[b2 [|]]|]; try discriminate;
    reflexivity.
Qed.

Lemma exhaust_advanceSnap w :
  active (mSnapApplicator (work w)) = true ->
  exhaust (advanceSnap w) = exhaust w.
Proof.
  intros Hs. destruct w as [[a l sb cb sa ca] ap]. simpl in Hs.
  destruct sa as [x|]; [|discriminate].
  unfold exhaust, advanceSnap, advance, onApp, onWork, set_database.
  simpl. rewrite <- (app_assoc (database ap)).
  rewrite (app_assoc (take batchSize (appRest x))), take_drop.
  reflexivity.
Qed.

Lemma exhaust_advanceCurr w :
  active (mSnapApplicator (work w)) = false ->
  active (mCurrApplicator (work w)) = true ->
  exhaust (advanceCurr w) = exhaust w.
Proof.
  intros Hs Hc. destruct w as [[a l sb cb sa ca] ap]. simpl in Hs, Hc.
  destruct ca as [x|]; [|discriminate].
  unfold exhaust, advanceCurr, advance, onApp, onWork, set_database.
  simpl. rewrite (active_false_rest _ Hs). simpl.
  rewrite <- (app_assoc (database ap)), take_drop. reflexivity.
Qed.

Lemma active_finish o : active (finish o) = false.
Proof. destruct o; reflexivity. Qed.

(** The stepped run of a level ends as the level applied whole: if
    the driver finishes from a running world, so does the walk. *)
Lemma drive_finishes_as_walk fuel :
  (forall w w', drive fuel WORK_RUNNING w = Finished w' ->
     exists n, resume n (onSuccess (exhaust w)) = Finished w')
  /\ (forall w w', drive fuel WORK_PENDING w = Finished w' ->
        exists n, walk n w = Finished w').
Proof.
  induction fuel as [|fuel [IHr IHp]]; [split; intros; discriminate|].
  assert (Hrun : forall w w', drive (S fuel) WORK_RUNNING w = Finished w' ->
            exists n, resume n (onSuccess (exhaust w)) = Finished w').
  { intros w w'. rewrite drive_S, cycle_running.
    set (w1 := if active (mSnapApplicator (work w)) then advanceSnap w
               else if active (mCurrApplicator (work w)) then advanceCurr w
               else w).
    assert (Hex : exhaust w1 = exhaust w).
    { unfold w1. destruct (active (mSnapApplicator (work w))) eqn:Hs;
        [apply exhaust_advanceSnap, Hs|].
      destruct (active (mCurrApplicator (work w))) eqn:Hc;
        [apply exhaust_advanceCurr; assumption|reflexivity]. }
    rewrite <- Hex. clearbody w1. clear Hex.
    destruct (onSuccess w1) as [[st w2]|] eqn:H; [|discriminate].
    pose proof H as H0.
    success_cases w1 H; try discriminate.
    - injection H as <- <-. simpl. apply IHr.
    - injection H as <- <-. simpl. apply IHr.
    - rewrite (exhaust_settled w1 Hs Hc), H0.
      simpl in H. injection H as <- <-.
      destruct (mLevel (work w1) =? 0)%nat; simpl.
      + intros E. exists 0. exact E.
      + apply IHp. }
  split; [exact Hrun|].
  intros w w' H. rewrite drive_S, cycle_pending in H.
  destruct (onStart w) as [[u w1]|] eqn:Hst; [|discriminate].
  rewrite <- drive_S in H. destruct (Hrun _ _ H) as [n Hn].
  exists (S n). rewrite walk_S, wholeLevel_eq, Hst. exact Hn.
Qed.


Lemma active_true_rest o : active o = true -> 0 < length (rest o).
Proof.
  destruct o as [[b [|e r]]|]; simpl; unfold hasWork; simpl;
    intros H; try discriminate; lia.
Qed.

Lemma backlog_advanceSnap w :
  0 < batchSize ->
  active (mSnapApplicator (work w)) = true ->
  backlog (advanceSnap w) < backlog w.
Proof.
  intros Hb Hs. pose proof (active_true_rest _ Hs) as Hr.
  destruct w as [[a l sb cb sa ca] ap]. simpl in *.
  destruct sa as [x|]; [|discriminate].
  unfold backlog, advanceSnap, advance, onApp, onWork. simpl in *.
  rewrite length_drop. lia.
Qed.

Lemma backlog_advanceCurr w :
  0 < batchSize ->
  active (mCurrApplicator (work w)) = true ->
  backlog (advanceCurr w) < backlog w.
Proof.
  intros Hb Hc. pose proof (active_true_rest _ Hc) as Hr.
  destruct w as [[a l sb cb sa ca] ap]. simpl in *.
  destruct ca as [x|]; [|discriminate].
  unfold backlog, advanceCurr, advance, onApp, onWork. simpl in *.
  rewrite length_drop. lia.
Qed.

(** With a positive batch size the stepping of a level comes to the
    evaluation of the level applied whole, after finitely many cycles. *)
Lemma stepping_terminates (m : nat) :
  0 < batchSize ->
  forall w, backlog w <= m ->
    exists f, forall k,
      drive (S f + k) WORK_RUNNING w = proceed k (onSuccess (exhaust w)).
Proof.
  intros Hb. induction m as [|m IH]; intros w Hm.
  - assert (Hs : active (mSnapApplicator (work w)) = false).
    { destruct (active (mSnapApplicator (work w))) eqn:E; [|reflexivity].
      apply active_true_rest in E. unfold backlog in Hm. lia. }
    assert (Hc : active (mCurrApplicator (work w)) = false).
    { destruct (active (mCurrApplicator (work w))) eqn:E; [|reflexivity].
      apply active_true_rest in E. unfold backlog in Hm. lia. }
    exists 0. intros k. simpl plus.
    rewrite drive_S, cycle_running, Hs, Hc, (exhaust_settled w Hs Hc).
    reflexivity.
  - set (w1 := if active (mSnapApplicator (work w)) then advanceSnap w
               else if active (mCurrApplicator (work w)) then advanceCurr w
               else w).
    assert (Hex : exhaust w1 = exhaust w).
    { unfold w1. destruct (active (mSnapApplicator (work w))) eqn:Hs;
        [apply exhaust_advanceSnap, Hs|].
      destruct (active (mCurrApplicator (work w))) eqn:Hc;
        [apply exhaust_advanceCurr; assumption|reflexivity]. }
    assert (Hlt : active (mSnapApplicator (work w1))
                  || active (mCurrApplicator (work w1)) = true ->
                  backlog w1 <= m).
    { unfold w1. destruct (active (mSnapApplicator (work w))) eqn:Hs.
      - intros _. pose proof (backlog_advanceSnap w Hb Hs). lia.
      - destruct (active (mCurrApplicator (work w))) eqn:Hc.
        + intros _. pose proof (backlog_advanceCurr w Hb Hc). lia.
        + rewrite Hs, Hc. discriminate. }
    assert (Hcyc : cycle WORK_RUNNING w = onSuccess w1)
      by apply cycle_running.
    clearbody w1.
    destruct (active (mSnapApplicator (work w1))
              || active (mCurrApplicator (work w1))) eqn:Hact.
    + destruct (IH w1 (Hlt eq_refl)) as [f Hf]. exists (S f). intros k.
      change (S (S f) + k) with (S (S f + k)).
      rewrite drive_S, Hcyc, (onSuccess_running w1 Hact).
      change (proceed (S f + k) (Ok (WORK_RUNNING, w1)))
        with (drive (S f + k) WORK_RUNNING w1).
      rewrite Hf, Hex. reflexivity.
    + apply orb_false_iff in Hact as [Hs Hc]. exists 0. intros k.
      simpl plus. rewrite drive_S, Hcyc, <- Hex.
      rewrite (exhaust_settled w1 Hs Hc). reflexivity.
Qed.

(** One level, from the pending state. *)
Lemma level_terminates w :
  0 < batchSize ->
  exists f, forall k,
    drive (S f + k) WORK_PENDING w = proceed k (wholeLevel w).
Proof.
  intros Hb. rewrite wholeLevel_eq.
  destruct (onStart w) as [[u w1]|] eqn:Hst.
  - destruct (stepping_terminates (backlog w1) Hb w1 (le_n _)) as [f Hf].
    exists f. intros k. rewrite <- Hf.
    change (S f + k) with (S (f + k)).
    rewrite !drive_S, cycle_pending, Hst. reflexivity.
  - exists 0. intros k. simpl plus.
    rewrite drive_S, cycle_pending, Hst. reflexivity.
Qed.

(** The walk is what the driver does, given enough fuel. *)
Lemma walk_is_driven (n : nat) :
  0 < batchSize ->
  forall w w', walk n w = Finished w' ->
    exists fuel, drive fuel WORK_PENDING w = Finished w'.
Proof.
  intros Hb. induction n as [|n IH]; intros w w' H; [discriminate|].
  rewrite walk_S in H. destruct (level_terminates w Hb) as [f Hf].
  destruct (wholeLevel w) as [[st w1]|] eqn:Hw; [|discriminate].
  destruct st; simpl in H; try discriminate.
  - destruct (IH _ _ H) as [fuel Hfuel]. exists (S f + fuel).
    rewrite Hf. simpl. exact Hfuel.
  - injection H as <-. exists (S f + 0). rewrite Hf. reflexivity.
Qed.


(** ** A whole level from an idle work *)

Lemma onStart_idle w u w1 :
  idle (work w) ->
  onStart w = Ok (u, w1) ->
  exists lev i sb cb,
    bucketList (mApp w) !! mLevel (work w) = Some lev
    /\ currentBuckets mApplyState !! mLevel (work w) = Some i
    /\ let needSnap :=
         mApplying (work w) || differs (snap i) (getSnap lev) in
       let needCurr := needSnap || differs (curr i) (getCurr lev) in
       planned needSnap (snap i) sb
       /\ planned needCurr (curr i) cb
       /\ work w1
          = mkWork needCurr (mLevel (work w)) sb cb
                   (makeApplicator <$> sb) (makeApplicator <$> cb)
       /\ mApp w1
          = mkApp (bucketList (mApp w)) (database (mApp w))
                  (mBucketApplyStart (mApp w) + count sb + count cb)
                  (mBucketApplySuccess (mApp w))
                  (mBucketApplyFailure (mApp w))
                  (assumedStates (mApp w))
                  (lookups (mApp w)
                     ++ (if needSnap then lookupsOf (snap i) else [])
                     ++ (if needCurr then lookupsOf (curr i) else []))
                  (commits (mApp w)).
Proof.
  intros (Hsb & Hcb & Hsa & Hca).
  destruct (bucketList (mApp w) !! mLevel (work w)) as [lev|] eqn:Hlev;
    [|rewrite onStart_out_of_range by (left; exact Hlev); discriminate].
  destruct (currentBuckets mApplyState !! mLevel (work w)) as [i|] eqn:Hi;
    [|rewrite onStart_out_of_range by (right; exact Hi); discriminate].
  rewrite (onStart_at w lev i Hlev Hi).
  destruct w as [[a l sb0 cb0 sa0 ca0] [bl db m1 m2 m3 hs ls cs]].
  simpl in *. subst sb0 cb0 sa0 ca0.
  destruct (a || differs (snap i) (getSnap lev)) eqn:Hn.
  - rewrite startSnap_resolve.
    destruct (resolve (snap i)) as [bs|] eqn:Hrs; [|discriminate]. simpl.
    rewrite startCurr_resolve.
    destruct (resolve (curr i)) as [bc|] eqn:Hrc; [|discriminate].
    intros [= _ <-]. exists lev, i, (Some bs), (Some bc). simpl.
    rewrite !noteLookups_work, !noteLookups_app. simpl.
    rewrite !noteLookups_work, !noteLookups_app. simpl.
    rewrite <- app_assoc, Hn. simpl.
    repeat split; try reflexivity; try assumption.
    unfold markStart. simpl. f_equal. lia.
  - simpl. destruct (a || differs (curr i) (getCurr lev)) eqn:Hc.
    + rewrite startCurr_resolve.
      destruct (resolve (curr i)) as [bc|] eqn:Hrc; [|discriminate].
      intros [= _ <-]. exists lev, i, None, (Some bc). simpl.
      rewrite !noteLookups_work, !noteLookups_app. simpl.
      rewrite Hn. apply orb_false_iff in Hn as [-> Hd]. simpl in *.
      rewrite Hc.
      repeat split; try reflexivity; try assumption.
      unfold markStart. simpl. f_equal. lia.
    + intros [= _ <-]. exists lev, i, None, None. simpl.
      rewrite Hn. apply orb_false_iff in Hn as [-> Hd]. simpl in *.
      rewrite Hc. rewrite !Nat.add_0_r, app_nil_r.
      repeat split; reflexivity.
Qed.

Lemma committed_levels l lev sb cb a :
  bucketList a !! l = Some lev ->
  bucketList (commitOne l CURR cb (commitOne l SNAP sb a))
  = <[l := mkLevel (default (getCurr lev) cb) (default (getSnap lev) sb)]>
      (bucketList a).
Proof.
  intros Hlev. pose proof (lookup_lt_Some _ _ _ Hlev) as Hlt.
  destruct sb as [bs|], cb as [bc|]; simpl.
  - rewrite (alter_at _ _ _ _ Hlev).
    rewrite (alter_at _ _ _ (setSnap bs lev))
      by (apply list_lookup_insert_eq, Hlt).
    rewrite list_insert_insert_eq. reflexivity.
  - rewrite (alter_at _ _ _ _ Hlev). reflexivity.
  - rewrite (alter_at _ _ _ _ Hlev). reflexivity.
  - symmetry. apply list_insert_id. rewrite Hlev. destruct lev; reflexivity.
Qed.

Lemma committed_fields l sb cb a :
  let a' := commitOne l CURR cb (commitOne l SNAP sb a) in
  database a' = database a
  /\ mBucketApplyStart a' = mBucketApplyStart a
  /\ mBucketApplySuccess a' = mBucketApplySuccess a + count sb + count cb
  /\ mBucketApplyFailure a' = mBucketApplyFailure a
  /\ assumedStates a' = assumedStates a
  /\ lookups a' = lookups a
  /\ commits a'
     = commits a ++ commitsOf l SNAP sb ++ commitsOf l CURR cb.
Proof.
  destruct sb as [bs|], cb as [bc|]; simpl; repeat split;
    rewrite ?app_nil_r, <- ?app_assoc; try reflexivity; lia.
Qed.

(** The level applied whole, from an idle work: what it leaves. *)
Lemma wholeLevel_idle w st w' :
  idle (work w) ->
  wholeLevel w = Ok (st, w') ->
  exists lev i sb cb,
    bucketList (mApp w) !! mLevel (work w) = Some lev
    /\ currentBuckets mApplyState !! mLevel (work w) = Some i
    /\ let l := mLevel (work w) in
       let needSnap :=
         mApplying (work w) || differs (snap i) (getSnap lev) in
       let needCurr := needSnap || differs (curr i) (getCurr lev) in
       planned needSnap (snap i) sb
       /\ planned needCurr (curr i) cb
       /\ st = (if (l =? 0)%nat then WORK_SUCCESS else WORK_PENDING)
       /\ work w' = mkWork needCurr (l - 1) None None None None
       /\ bucketList (mApp w')
          = <[l := mkLevel (default (getCurr lev) cb)
                           (default (getSnap lev) sb)]>
              (bucketList (mApp w))
       /\ database (mApp w')
          = database (mApp w) ++ entriesOf sb ++ entriesOf cb
       /\ mBucketApplyStart (mApp w')
          = mBucketApplyStart (mApp w) + count sb + count cb
       /\ mBucketApplySuccess (mApp w')
          = mBucketApplySuccess (mApp w) + count sb + count cb
       /\ mBucketApplyFailure (mApp w') = mBucketApplyFailure (mApp w)
       /\ commits (mApp w')
          = commits (mApp w) ++ commitsOf l SNAP sb ++ commitsOf l CURR cb
       /\ assumedStates (mApp w')
          = assumedStates (mApp w)
            ++ (if (l =? 0)%nat then [mApplyState] else [])
       /\ lookups (mApp w')
          = lookups (mApp w)
            ++ (if needSnap then lookupsOf (snap i) else [])
            ++ (if needCurr then lookupsOf (curr i) else []).
Proof.
  intros Hidle. rewrite wholeLevel_eq.
  destruct (onStart w) as [[u w1]|] eqn:Hst; [|discriminate].
  destruct (onStart_idle w u w1 Hidle Hst)
    as (lev & i & sb & cb & Hlev & Hi & Hps & Hpc & Hwork & Happ).
  assert (Hlev1 : bucketList (mApp (exhaust w1))
                    !! mLevel (work (exhaust w1)) = Some lev).
  { simpl. rewrite Hwork, Happ. simpl. exact Hlev. }
  rewrite (onSuccess_done (exhaust w1) lev
             (active_finish _) (active_finish _) Hlev1).
  intros [= <- <-]. exists lev, i, sb, cb.
  split; [exact Hlev|]. split; [exact Hi|].
  simpl. rewrite Hwork, Happ. simpl.
  unfold committed. simpl.
  pose proof (committed_fields (mLevel (work w)) sb cb
    (set_database
       (database (mApp w) ++ rest (makeApplicator <$> sb)
                          ++ rest (makeApplicator <$> cb))
       (mkApp (bucketList (mApp w)) (database (mApp w))
          (mBucketApplyStart (mApp w) + count sb + count cb)
          (mBucketApplySuccess (mApp w)) (mBucketApplyFailure (mApp w))
          (assumedStates (mApp w))
          (lookups (mApp w)
             ++ (if mApplying (work w) || differs (snap i) (getSnap lev)
                 then lookupsOf (snap i) else [])
             ++ (if mApplying (work w) || differs (snap i) (getSnap lev)
                    || differs (curr i) (getCurr lev)
                 then lookupsOf (curr i) else []))
          (commits (mApp w))))) as (F1 & F2 & F3 & F4 & F5 & F6 & F7).
  assert (Hrest : forall o, rest (makeApplicator <$> o) = entriesOf o)
    by (intros [b|]; reflexivity).
  rewrite !Hrest in *.
  split; [exact Hps|]. split; [exact Hpc|].
  destruct (mLevel (work w) =? 0)%nat; simpl;
    (split; [reflexivity|]); (split; [reflexivity|]);
    rewrite ?app_nil_r;
    repeat split;
    first [exact F1|exact F2|exact F3|exact F4|exact F5|exact F6|exact F7
          |rewrite F5; reflexivity
          |rewrite (committed_levels _ lev) by exact Hlev; reflexivity].
Qed.


(** ** The walk over the levels *)

Lemma idle_mkWork a l : idle (mkWork a l None None None None).
Proof. unfold idle. simpl. tauto. Qed.

Lemma wholeLevel_keeps_idle w st w' :
  idle (work w) -> wholeLevel w = Ok (st, w') -> idle (work w').
Proof.
  intros Hidle H.
  destruct (wholeLevel_idle w st w' Hidle H)
    as (lev & i & sb & cb & _ & _ & _ & _ & _ & Hwork & _).
  rewrite Hwork. apply idle_mkWork.
Qed.

(** The walk leaves the levels above its cursor alone. *)
Lemma walk_frame_above n :
  forall w w', idle (work w) -> walk n w = Finished w' ->
    forall j, mLevel (work w) < j ->
      bucketList (mApp w') !! j = bucketList (mApp w) !! j.
Proof.
  induction n as [|n IH]; intros w w' Hidle H j Hj; [discriminate|].
  rewrite walk_S in H.
  destruct (wholeLevel w) as [[st w1]|] eqn:Hw; [|discriminate].
  destruct (wholeLevel_idle w st w1 Hidle Hw)
    as (lev & i & sb & cb & Hlev & Hi & _ & _ & Hst & Hwork & Hbl & _).
  assert (Hj1 : bucketList (mApp w1) !! j = bucketList (mApp w) !! j).
  { rewrite Hbl. apply list_lookup_insert_ne. lia. }
  destruct st; simpl in H; try discriminate.
  - rewrite <- Hj1.
    apply (IH w1 w' (wholeLevel_keeps_idle _ _ _ Hidle Hw) H).
    rewrite Hwork. simpl. lia.
  - injection H as <-. exact Hj1.
Qed.

(** The walk installs the target once, at its end. *)
Lemma walk_assumes_once n :
  forall w w', idle (work w) -> walk n w = Finished w' ->
    assumedStates (mApp w') = assumedStates (mApp w) ++ [mApplyState].
Proof.
  induction n as [|n IH]; intros w w' Hidle H; [discriminate|].
  rewrite walk_S in H.
  destruct (wholeLevel w) as [[st w1]|] eqn:Hw; [|discriminate].
  destruct (wholeLevel_idle w st w1 Hidle Hw)
    as (lev & i & sb & cb & _ & _ & _ & _ & Hst & _ & _ & _ & _ & _ & _
        & _ & Has & _).
  destruct (mLevel (work w) =? 0)%nat; subst st; simpl in H.
  - injection H as <-. exact Has.
  - rewrite (IH w1 w' (wholeLevel_keeps_idle _ _ _ Hidle Hw) H), Has.
    rewrite app_nil_r. reflexivity.
Qed.

Lemma planned_true hash o :
  planned true hash o -> exists b, o = Some b /\ resolve hash = Ok b.
Proof.
  destruct o as [b|]; simpl; [intros [_ H]; eauto|discriminate].
Qed.

(** The walk only adds to the record of commits. *)
Lemma walk_commits_grow n :
  forall w w', idle (work w) -> walk n w = Finished w' ->
    exists more, commits (mApp w') = commits (mApp w) ++ more.
Proof.
  induction n as [|n IH]; intros w w' Hidle H; [discriminate|].
  rewrite walk_S in H.
  destruct (wholeLevel w) as [[st w1]|] eqn:Hw; [|discriminate].
  destruct (wholeLevel_idle w st w1 Hidle Hw)
    as (lev & i & sb & cb & _ & _ & _ & _ & Hst & _ & _ & _ & _ & _ & _
        & Hcs & _).
  destruct st; simpl in H; try discriminate.
  - destruct (IH w1 w' (wholeLevel_keeps_idle _ _ _ Hidle Hw) H)
      as [more Hmore].
    eexists. rewrite Hmore, Hcs, <- app_assoc. reflexivity.
  - injection H as <-. eexists. exact Hcs.
Qed.

(** The cascade along the walk: a level at or below the cursor ends up
    replaced as soon as the flag is set or a level between it and the
    cursor fails a start-of-level test. *)
Lemma walk_cascade n :
  forall w w', idle (work w) -> walk n w = Finished w' ->
    forall L',
      (L' <= mLevel (work w) /\ mApplying (work w) = true)
      \/ (exists L, L' < L /\ L <= mLevel (work w)
            /\ (snapDiffers (bucketList (mApp w)) L
                \/ currDiffers (bucketList (mApp w)) L)) ->
      replacedAt (mApp w') L'.
Proof.
  induction n as [|n IH]; intros w w' Hidle H L' Hcase; [discriminate|].
  rewrite walk_S in H.
  destruct (wholeLevel w) as [[st w1]|] eqn:Hw; [|discriminate].
  pose proof (wholeLevel_keeps_idle _ _ _ Hidle Hw) as Hidle1.
  destruct (wholeLevel_idle w st w1 Hidle Hw)
    as (lev & i & sb & cb & Hlev & Hi & Hps & Hpc & Hst & Hwork & Hbl
        & _ & _ & _ & _ & Hcs & _).
  pose proof (lookup_lt_Some _ _ _ Hlev) as Hlt.
  (* the cursor's own level, when the flag is already set *)
  assert (Hown : mApplying (work w) = true ->
            replacedAt (mApp w1) (mLevel (work w))).
  { intros Ha. rewrite Ha in Hps, Hpc. simpl in Hps, Hpc.
    destruct (planned_true _ _ Hps) as (bs & -> & Hrs).
    destruct (planned_true _ _ Hpc) as (bc & -> & Hrc).
    exists i, bs, bc. rewrite Hbl, Hcs, list_lookup_insert_eq by exact Hlt.
    simpl. repeat split; try assumption; try reflexivity.
    - apply in_or_app. right. left. reflexivity.
    - apply in_or_app. right. right. left. reflexivity. }
  (* the flag after this level *)
  assert (Hflag : mApplying (work w) = true
                  \/ snapDiffers (bucketList (mApp w)) (mLevel (work w))
                  \/ currDiffers (bucketList (mApp w)) (mLevel (work w)) ->
                  mApplying (work w1) = true).
  { rewrite Hwork. simpl. intros [->|[Hd|Hd]]; [reflexivity| |].
    - destruct Hd as (lev' & i' & Hl' & Hi' & Hne).
      rewrite Hlev in Hl'. rewrite Hi in Hi'.
      injection Hl' as <-. injection Hi' as <-.
      apply differs_true in Hne. rewrite Hne.
      rewrite orb_true_r. reflexivity.
    - destruct Hd as (lev' & i' & Hl' & Hi' & Hne).
      rewrite Hlev in Hl'. rewrite Hi in Hi'.
      injection Hl' as <-. injection Hi' as <-.
      apply differs_true in Hne. rewrite Hne.
      rewrite orb_true_r. reflexivity. }
  destruct (mLevel (work w) =? 0)%nat eqn:Hz; subst st; simpl in H.
  - injection H as <-. apply Nat.eqb_eq in Hz.
    destruct Hcase as [[Hle Ha]|(L & H1 & H2 & _)]; [|lia].
    replace L' with (mLevel (work w)) by lia. apply Hown, Ha.
  - apply Nat.eqb_neq in Hz.
    assert (Hlev1 : mLevel (work w1) = mLevel (work w) - 1)
      by (rewrite Hwork; reflexivity).
    destruct (Nat.eq_dec L' (mLevel (work w))) as [->|Hne].
    + destruct Hcase as [[_ Ha]|(L & H1 & H2 & _)]; [|lia].
      destruct (Hown Ha) as (i' & bs & bc & Hi' & Hrs & Hrc & Hl & C1 & C2).
      destruct (walk_commits_grow n w1 w' Hidle1 H) as [more Hmore].
      exists i', bs, bc. rewrite Hmore.
      repeat split; try assumption;
        try (apply in_or_app; left; assumption).
      rewrite (walk_frame_above n w1 w' Hidle1 H) by lia. exact Hl.
    + apply (IH w1 w' Hidle1 H).
      destruct Hcase as [[Hle Ha]|(L & H1 & H2 & Hd)].
      * left. split; [lia|]. apply Hflag. left. exact Ha.
      * destruct (Nat.eq_dec L (mLevel (work w))) as [->|HL].
        -- left. split; [lia|]. apply Hflag. right. exact Hd.
        -- right. exists L. split; [exact H1|]. split; [lia|].
           assert (Hsame : bucketList (mApp w1) !! L
                           = bucketList (mApp w) !! L)
             by (rewrite Hbl; apply list_lookup_insert_ne; lia).
           unfold snapDiffers, currDiffers. rewrite Hsame. exact Hd.
Qed.


(** A level goes through when its hashes resolve. *)
Lemma wholeLevel_succeeds w lev i bs bc :
  bucketList (mApp w) !! mLevel (work w) = Some lev ->
  currentBuckets mApplyState !! mLevel (work w) = Some i ->
  (mApplying (work w) || differs (snap i) (getSnap lev) = true ->
   resolve (snap i) = Ok bs) ->
  (mApplying (work w) || differs (snap i) (getSnap lev)
     || differs (curr i) (getCurr lev) = true ->
   resolve (curr i) = Ok bc) ->
  exists st w', wholeLevel w = Ok (st, w').
Proof.
  intros Hlev Hi Hrs Hrc.
  assert (Hst : exists w1, onStart w = Ok (tt, w1)).
  { rewrite (onStart_at w lev i Hlev Hi).
    destruct (mApplying (work w) || differs (snap i) (getSnap lev)) eqn:Hn.
    - rewrite startSnap_resolve, (Hrs eq_refl). simpl.
      rewrite startCurr_resolve, (Hrc eq_refl). eauto.
    - simpl in Hrc.
      apply orb_false_iff in Hn as [Ha Hd]. rewrite Ha in *. simpl in *.
      destruct (differs (curr i) (getCurr lev)); [|eauto].
      rewrite startCurr_resolve, (Hrc eq_refl). eauto. }
  destruct Hst as [w1 Hst]. rewrite wholeLevel_eq, Hst.
  destruct (onStart_frame _ _ _ Hst) as (Hbl & _ & _ & _ & _ & Hl).
  assert (Hlev1 : bucketList (mApp (exhaust w1))
                    !! mLevel (work (exhaust w1)) = Some lev).
  { simpl. rewrite Hbl, Hl. exact Hlev. }
  rewrite (onSuccess_done (exhaust w1) lev
             (active_finish _) (active_finish _) Hlev1).
  eauto.
Qed.

(** The walk comes to its end when the target's hashes resolve. *)
Lemma walk_total l :
  forall w, mLevel (work w) = l -> idle (work w) ->
    l < length (bucketList (mApp w)) ->
    resolvable (S l) ->
    exists w', walk (S l) w = Finished w'.
Proof.
  induction l as [|l IH]; intros w Hl Hidle Hlen Hres.
  - destruct (lookup_lt_is_Some_2 _ _ Hlen) as [lev Hlev].
    destruct (Hres 0 (Nat.lt_0_succ _)) as (i & bs & bc & Hi & Hrs & Hrc).
    rewrite <- Hl in Hlev, Hi.
    destruct (wholeLevel_succeeds w lev i bs bc Hlev Hi
                (fun _ => Hrs) (fun _ => Hrc)) as (st & w1 & Hw).
    destruct (wholeLevel_idle w st w1 Hidle Hw)
      as (lev' & i' & sb & cb & _ & _ & _ & _ & Hst & _).
    rewrite Hl in Hst. simpl in Hst. subst st.
    exists w1. rewrite walk_S, Hw. reflexivity.
  - destruct (lookup_lt_is_Some_2 _ _ Hlen) as [lev Hlev].
    destruct (Hres (S l) (Nat.lt_succ_diag_r _))
      as (i & bs & bc & Hi & Hrs & Hrc).
    rewrite <- Hl in Hlev, Hi.
    destruct (wholeLevel_succeeds w lev i bs bc Hlev Hi
                (fun _ => Hrs) (fun _ => Hrc)) as (st & w1 & Hw).
    destruct (wholeLevel_idle w st w1 Hidle Hw)
      as (lev' & i' & sb & cb & _ & _ & _ & _ & Hst & Hwork & Hbl & _).
    rewrite Hl in Hst, Hwork. simpl in Hst, Hwork. subst st.
    destruct (IH w1) as [w' Hw'].
    + rewrite Hwork. simpl. lia.
    + rewrite Hwork. apply idle_mkWork.
    + rewrite Hbl, length_insert. lia.
    + intros j Hj. apply Hres. lia.
    + exists w'. rewrite walk_S, Hw. exact Hw'.
Qed.

(** A run completes: with a positive batch size, as many live levels
    as the walk visits and a target whose hashes all resolve, enough
    fuel brings the driver to success. *)
Lemma run_completes (a : Application) :
  0 < batchSize ->
  0 < kNumLevels ->
  kNumLevels <= length (bucketList a) ->
  resolvable kNumLevels ->
  exists fuel w', run fuel a = Finished w'.
Proof.
  intros Hb Hn Hlen Hres.
  destruct (walk_total (kNumLevels - 1) (newWork a)) as [w' Hw'].
  - reflexivity.
  - apply idle_mkWork.
  - simpl. lia.
  - replace (S (kNumLevels - 1)) with kNumLevels by lia. exact Hres.
  - destruct (walk_is_driven _ Hb _ _ Hw') as [fuel Hfuel].
    exists fuel, w'. exact Hfuel.
Qed.

(** ** The cascade *)

(** C1, cascade: a run is a work as constructed, or as a reset leaves
    it, driven to success. In every run, a level [L] whose live snap or
    curr hash fails the start-of-level test against the target makes
    every finer level [L' < L] end the run holding the buckets its
    target hashes resolve to, put there by [setSnap] and [setCurr],
    whether or not the hashes of [L'] matched before the run. *)
Theorem cascade_replaces_finer_levels
    (fuel : nat) (a : Application) (w' : World) (L L' : nat) :
  run fuel a = Finished w' ->
  L < kNumLevels ->
  L' < L ->
  snapDiffers (bucketList a) L \/ currDiffers (bucketList a) L ->
  replacedAt (mApp w') L'.
Proof.
  intros Hrun HL HL' Hd.
  destruct (proj2 (drive_finishes_as_walk fuel) _ _ Hrun) as [n Hn].
  apply (walk_cascade n (newWork a) w' (idle_mkWork _ _) Hn).
  right. exists L. simpl. split; [exact HL'|]. split; [lia|exact Hd].
Qed.

(** ** The head *)

(** C3, final-state equivalence and single commit point: an invocation
    installs a head only as an end-of-level evaluation at cursor 0 with
    both applicators exhausted, which answers "success" and installs
    the target; a run that completes has installed exactly one head,
    the target, whose entry at every level is the target's. *)
Theorem single_commit_point :
  (forall h w r w',
      invoke h w = Ok (r, w') ->
      assumedStates (mApp w') = assumedStates (mApp w)
      \/ (h = HSuccess
          /\ mLevel (work w) = 0
          /\ active (mSnapApplicator (work w)) = false
          /\ active (mCurrApplicator (work w)) = false
          /\ r = Some WORK_SUCCESS
          /\ assumedStates (mApp w')
             = assumedStates (mApp w) ++ [mApplyState]))
  /\ (forall fuel a w',
        run fuel a = Finished w' ->
        assumedStates (mApp w') = assumedStates a ++ [mApplyState]
        /\ exists head,
             installedHead (mApp w') = Some head
             /\ forall l,
                  currentBuckets head !! l
                  = currentBuckets mApplyState !! l).
Proof.
  split.
  - intros h w r w' H. destruct h; simpl in H; unmonad.
    + injection H as <- <-. left. reflexivity.
    + destruct (onStart w) as [[u w1]|] eqn:Hst; [|discriminate].
      injection H as <- <-. left. apply (onStart_frame _ _ _ Hst).
    + destruct (onRun w) as [[u w1]|] eqn:Hrun; [|discriminate].
      injection H as <- <-. left. apply (onRun_frame _ _ _ Hrun).
    + destruct (onSuccess w) as [[st w1]|] eqn:Hsu; [|discriminate].
      injection H as <- <-.
      success_cases w Hsu; try discriminate;
        try (injection Hsu as <- <-; left; reflexivity).
      simpl in Hsu. injection Hsu as <- <-. simpl.
      destruct (committed_frame (mLevel (work w)) (work w) (mApp w))
        as (_ & Has & _).
      destruct (mLevel (work w) =? 0)%nat eqn:Hz; simpl.
      * right. apply Nat.eqb_eq in Hz. rewrite Has. tauto.
      * left. exact Has.
    + injection H as <- <-. left. reflexivity.
    + injection H as <- <-. left. reflexivity.
  - intros fuel a w' Hrun.
    destruct (proj2 (drive_finishes_as_walk fuel) _ _ Hrun) as [n Hn].
    pose proof (walk_assumes_once n (newWork a) w' (idle_mkWork _ _) Hn)
      as Has.
    simpl in Has. split; [exact Has|].
    exists mApplyState. unfold installedHead. rewrite Has, last_snoc.
    split; reflexivity.
Qed.


(** ** A target that is already there *)

(** One cycle on a level that matches, with the flag clear. *)
Lemma cycle_matching l ap :
  l < length (bucketList ap) ->
  matchesTarget (bucketList ap) ->
  onStart (idleAt false l ap) = Ok (tt, idleAt false l ap)
  /\ cycle WORK_PENDING (idleAt false l ap)
     = Ok (if (l =? 0)%nat then WORK_SUCCESS else WORK_PENDING,
           idleAt false (l - 1)
             (if (l =? 0)%nat then assumeState mApplyState ap else ap)).
Proof.
  intros Hlen Hmatch.
  destruct (lookup_lt_is_Some_2 _ _ Hlen) as [lev Hlev].
  destruct (Hmatch l lev Hlev) as (i & Hi & Hs & Hc).
  assert (Hst : onStart (idleAt false l ap) = Ok (tt, idleAt false l ap)).
  { rewrite (onStart_at (idleAt false l ap) lev i Hlev Hi). simpl.
    apply differs_false in Hs, Hc. rewrite Hs, Hc. reflexivity. }
  split; [exact Hst|].
  rewrite cycle_pending, Hst, cycle_running. simpl.
  rewrite (onSuccess_done (idleAt false l ap) lev eq_refl eq_refl Hlev).
  reflexivity.
Qed.

Lemma drive_matching_pending f :
  forall l ap, f <= l -> l < length (bucketList ap) ->
    matchesTarget (bucketList ap) ->
    drive f WORK_PENDING (idleAt false l ap)
    = OutOfFuel WORK_PENDING (idleAt false (l - f) ap).
Proof.
  induction f as [|f IH]; intros l ap Hf Hlen Hmatch.
  - rewrite Nat.sub_0_r. reflexivity.
  - rewrite drive_S, (proj2 (cycle_matching l ap Hlen Hmatch)).
    destruct l as [|l]; [lia|]. simpl. rewrite Nat.sub_0_r.
    apply IH; [lia|lia|exact Hmatch].
Qed.

Lemma drive_matching l :
  forall ap, l < length (bucketList ap) ->
    matchesTarget (bucketList ap) ->
    drive (S l) WORK_PENDING (idleAt false l ap)
    = Finished (idleAt false 0 (assumeState mApplyState ap)).
Proof.
  induction l as [|l IH]; intros ap Hlen Hmatch;
    rewrite drive_S, (proj2 (cycle_matching _ ap Hlen Hmatch)).
  - reflexivity.
  - simpl. rewrite Nat.sub_0_r. apply IH; [lia|exact Hmatch].
Qed.

(** C7, no-op idempotence: when every level of the live list carries
    the target's hashes, the run completes in one cycle per level; no
    start-of-level hook changes anything, so no bucket is resolved, no
    applicator made and no meter marked; the world at the end differs
    from the one at the start only by the cursor and by the target
    installed as head. *)
Theorem noop_idempotence (a : Application) :
  0 < kNumLevels ->
  length (bucketList a) = kNumLevels ->
  matchesTarget (bucketList a) ->
  let final := assumeState mApplyState a in
  run kNumLevels a = Finished (idleAt false 0 final)
  /\ (forall f, f < kNumLevels ->
        run f a
        = OutOfFuel WORK_PENDING (idleAt false (kNumLevels - 1 - f) a))
  /\ (forall l, l < kNumLevels ->
        onStart (idleAt false l a) = Ok (tt, idleAt false l a))
  /\ mBucketApplyStart final = mBucketApplyStart a
  /\ mBucketApplySuccess final = mBucketApplySuccess a
  /\ commits final = commits a
  /\ lookups final = lookups a
  /\ database final = database a
  /\ bucketList final = bucketList a
  /\ assumedStates final = assumedStates a ++ [mApplyState]
  /\ installedHead final = Some mApplyState.
Proof.
  intros Hn Hlen Hmatch final.
  split; [|split; [|split]].
  - unfold run, newWork, initialWork.
    replace kNumLevels with (S (kNumLevels - 1)) at 1 by lia.
    apply (drive_matching (kNumLevels - 1) a); [lia|exact Hmatch].
  - intros f Hf. unfold run, newWork, initialWork.
    apply (drive_matching_pending f (kNumLevels - 1) a);
      [lia|lia|exact Hmatch].
  - intros l Hl. apply cycle_matching; [lia|exact Hmatch].
  - unfold final, installedHead. simpl. rewrite last_snoc.
    repeat split; reflexivity.
Qed.


(** ** A level applied whole, from what its tests demand *)

Lemma planned_functional need hash o o' :
  planned need hash o -> planned need hash o' -> o = o'.
Proof.
  destruct o as [b|], o' as [b'|]; simpl; intros H H'.
  - destruct H as [_ H], H' as [_ H']. congruence.
  - destruct H as [H _]. congruence.
  - destruct H' as [H' _]. congruence.
  - reflexivity.
Qed.

Lemma wholeLevel_planned w lev i sb cb :
  idle (work w) ->
  bucketList (mApp w) !! mLevel (work w) = Some lev ->
  currentBuckets mApplyState !! mLevel (work w) = Some i ->
  let l := mLevel (work w) in
  let needSnap := mApplying (work w) || differs (snap i) (getSnap lev) in
  let needCurr := needSnap || differs (curr i) (getCurr lev) in
  planned needSnap (snap i) sb ->
  planned needCurr (curr i) cb ->
  exists w',
    wholeLevel w
    = Ok (if (l =? 0)%nat then WORK_SUCCESS else WORK_PENDING, w')
    /\ work w' = mkWork needCurr (l - 1) None None None None
    /\ bucketList (mApp w')
       = <[l := mkLevel (default (getCurr lev) cb)
                        (default (getSnap lev) sb)]>
           (bucketList (mApp w))
    /\ database (mApp w')
       = database (mApp w) ++ entriesOf sb ++ entriesOf cb
    /\ mBucketApplyStart (mApp w')
       = mBucketApplyStart (mApp w) + count sb + count cb
    /\ mBucketApplySuccess (mApp w')
       = mBucketApplySuccess (mApp w) + count sb + count cb
    /\ commits (mApp w')
       = commits (mApp w) ++ commitsOf l SNAP sb ++ commitsOf l CURR cb.
Proof.
  intros Hidle Hlev Hi l needSnap needCurr Hps Hpc.
  destruct (wholeLevel_succeeds w lev i
              (default emptyBucket sb) (default emptyBucket cb) Hlev Hi)
    as (st & w' & Hw).
  - fold needSnap. intros Hn. rewrite Hn in Hps.
    destruct (planned_true _ _ Hps) as (b & -> & Hr). exact Hr.
  - fold needSnap. fold needCurr. intros Hn. rewrite Hn in Hpc.
    destruct (planned_true _ _ Hpc) as (b & -> & Hr). exact Hr.
  - destruct (wholeLevel_idle w st w' Hidle Hw)
      as (lev' & i' & sb' & cb' & Hlev' & Hi' & Hps' & Hpc' & Hst & Hwork
          & Hbl & Hdb & Hm1 & Hm2 & _ & Hcs & _).
    rewrite Hlev in Hlev'. rewrite Hi in Hi'.
    injection Hlev' as <-. injection Hi' as <-.
    rewrite (planned_functional _ _ _ _ Hps' Hps) in *.
    rewrite (planned_functional _ _ _ _ Hpc' Hpc) in *.
    exists w'. subst st. repeat split; assumption.
Qed.

(** ** Scenario B *)

(** C9, curr-only trigger at the first mismatching level: with three
    levels, a target that differs from the live list in the curr hash
    of level 2 alone, and the five hashes resolving, the run completes
    with exactly five commits, in order level 2 curr, then snap and
    curr of level 1 and of level 0; level 2 keeps its snap; the start
    and the success meter are marked five times each. *)
Theorem curr_only_trigger (a : Application)
    (l0 l1 l2 : BucketLevel) (t0 t1 t2 : HistoryStateBucket)
    (b2c b1s b1c b0s b0c : Bucket) :
  kNumLevels = 3 ->
  0 < batchSize ->
  bucketList a = [l0; l1; l2] ->
  currentBuckets mApplyState = [t0; t1; t2] ->
  snap t2 = binToHex (getHash (getSnap l2)) ->
  curr t2 <> binToHex (getHash (getCurr l2)) ->
  snap t1 = binToHex (getHash (getSnap l1)) ->
  curr t1 = binToHex (getHash (getCurr l1)) ->
  snap t0 = binToHex (getHash (getSnap l0)) ->
  curr t0 = binToHex (getHash (getCurr l0)) ->
  resolve (curr t2) = Ok b2c ->
  resolve (snap t1) = Ok b1s ->
  resolve (curr t1) = Ok b1c ->
  resolve (snap t0) = Ok b0s ->
  resolve (curr t0) = Ok b0c ->
  exists fuel w',
    run fuel a = Finished w'
    /\ commits (mApp w')
       = commits a
         ++ [mkCommit 2 CURR b2c; mkCommit 1 SNAP b1s; mkCommit 1 CURR b1c;
             mkCommit 0 SNAP b0s; mkCommit 0 CURR b0c]
    /\ bucketList (mApp w')
       = [mkLevel b0c b0s; mkLevel b1c b1s; mkLevel b2c (getSnap l2)]
    /\ mBucketApplyStart (mApp w') = mBucketApplyStart a + 5
    /\ mBucketApplySuccess (mApp w') = mBucketApplySuccess a + 5
    /\ database (mApp w')
       = database a ++ getEntries b2c ++ getEntries b1s ++ getEntries b1c
                    ++ getEntries b0s ++ getEntries b0c.
Proof.
  intros HN Hb Hbl Htg Hs2 Hc2 Hs1 Hc1 Hs0 Hc0 R2c R1s R1c R0s R0c.
  apply differs_false in Hs2, Hs1, Hc1, Hs0, Hc0. apply differs_true in Hc2.
  (* level 2: only curr *)
  destruct (wholeLevel_planned (newWork a) l2 t2 None (Some b2c))
    as (w2 & E2 & K2 & B2 & D2 & M2 & S2 & C2);
    [apply idle_mkWork
    |simpl; rewrite HN, Hbl; reflexivity
    |simpl; rewrite HN, Htg; reflexivity
    |simpl; rewrite Hs2; reflexivity
    |simpl; rewrite Hs2, Hc2; split; [reflexivity|exact R2c]|].
  simpl in E2, K2, B2, D2, M2, S2, C2.
  rewrite HN in E2, K2, B2, C2. rewrite Hs2, Hc2 in K2.
  rewrite Hbl in B2. simpl in E2, K2, B2, C2.
  (* level 1: both, by the flag *)
  destruct (wholeLevel_planned w2 l1 t1 (Some b1s) (Some b1c))
    as (w1 & E1 & K1 & B1 & D1 & M1 & S1 & C1);
    [rewrite K2; apply idle_mkWork
    |rewrite K2, B2; reflexivity
    |rewrite K2, Htg; reflexivity
    |rewrite K2; simpl; split; [reflexivity|exact R1s]
    |rewrite K2; simpl; split; [reflexivity|exact R1c]|].
  rewrite K2 in E1, K1, B1, C1. rewrite B2 in B1.
  simpl in E1, K1, B1, D1, M1, S1, C1.
  (* level 0: both, by the flag *)
  destruct (wholeLevel_planned w1 l0 t0 (Some b0s) (Some b0c))
    as (w0 & E0 & K0 & B0 & D0 & M0 & S0 & C0);
    [rewrite K1; apply idle_mkWork
    |rewrite K1, B1; reflexivity
    |rewrite K1, Htg; reflexivity
    |rewrite K1; simpl; split; [reflexivity|exact R0s]
    |rewrite K1; simpl; split; [reflexivity|exact R0c]|].
  rewrite K1 in E0, K0, B0, C0. rewrite B1 in B0.
  simpl in E0, K0, B0, D0, M0, S0, C0.
  assert (Hwalk : walk 3 (newWork a) = Finished w0).
  { rewrite walk_S, E2. unfold resume. rewrite walk_S, E1. unfold resume.
    rewrite walk_S, E0. reflexivity. }
  destruct (walk_is_driven 3 Hb _ _ Hwalk) as [fuel Hfuel].
  exists fuel, w0. split; [exact Hfuel|].
  rewrite C0, C1, C2, B0, D0, D1, D2, M0, M1, M2, S0, S1, S2.
  simpl. rewrite <- !app_assoc. simpl.
  repeat split; try reflexivity; lia.
Qed.


(** ** Further properties of the hooks *)

(** The three ways a start-of-level hook can return: nothing started,
    the curr bucket alone, or both. *)
Lemma onStart_shapes w u w' :
  onStart w = Ok (u, w') ->
  w' = w
  \/ (exists bc ls,
        w' = onApp markStart
               (onWork (set_mApplying true)
                  (onWork (set_curr (Some bc) (Some (makeApplicator bc)))
                     (noteLookups ls w))))
  \/ (exists bs bc ls1 ls2,
        w' = onApp markStart
               (onWork (set_mApplying true)
                  (onWork (set_curr (Some bc) (Some (makeApplicator bc)))
                     (noteLookups ls2
                        (onApp markStart
                           (onWork (set_mApplying true)
                              (onWork (set_snap (Some bs)
                                         (Some (makeApplicator bs)))
                                 (noteLookups ls1 w)))))))).
Proof.
  destruct (bucketList (mApp w) !! mLevel (work w)) as [lev|] eqn:Hlev;
    [|rewrite onStart_out_of_range by (left; exact Hlev); discriminate].
  destruct (currentBuckets mApplyState !! mLevel (work w)) as [i|] eqn:Hi;
    [|rewrite onStart_out_of_range by (right; exact Hi); discriminate].
  rewrite (onStart_at w lev i Hlev Hi).
  destruct (mApplying (work w) || differs (snap i) (getSnap lev)).
  - rewrite startSnap_resolve.
    destruct (resolve (snap i)) as [bs|]; [|discriminate]. simpl.
    rewrite startCurr_resolve.
    destruct (resolve (curr i)) as [bc|]; [|discriminate].
    intros [= _ <-]. right. right. eauto.
  - destruct (mApplying (work w) || differs (curr i) (getCurr lev)).
    + rewrite startCurr_resolve.
      destruct (resolve (curr i)) as [bc|]; [|discriminate].
      intros [= _ <-]. right. left. eauto.
    + intros [= _ <-]. left. reflexivity.
Qed.

(** What the start-of-level hook does to the flag and the meters. *)
Lemma onStart_flag_and_meters w u w' :
  onStart w = Ok (u, w') ->
  (mApplying (work w) = true -> mApplying (work w') = true)
  /\ mBucketApplyFailure (mApp w') = mBucketApplyFailure (mApp w).
Proof.
  intros H.
  destruct (onStart_shapes _ _ _ H)
    as [->|[(bc & ls & ->)|(bs & bc & ls1 & ls2 & ->)]]; simpl;
    rewrite ?noteLookups_app; simpl; rewrite ?noteLookups_app; simpl;
    split; auto.
Qed.

Lemma onRun_meters w u w' :
  onRun w = Ok (u, w') ->
  mBucketApplyStart (mApp w') = mBucketApplyStart (mApp w)
  /\ mBucketApplySuccess (mApp w') = mBucketApplySuccess (mApp w)
  /\ mBucketApplyFailure (mApp w') = mBucketApplyFailure (mApp w)
  /\ lookups (mApp w') = lookups (mApp w).
Proof.
  rewrite onRun_cases. intros [= _ <-].
  unfold advanceSnap, advanceCurr.
  destruct (active (mSnapApplicator (work w)));
    [destruct (mSnapApplicator (work w)); simpl; tauto|].
  destruct (active (mCurrApplicator (work w)));
    [destruct (mCurrApplicator (work w)); simpl; tauto|tauto].
Qed.

Lemma commitOne_counts l s o a :
  mBucketApplySuccess (commitOne l s o a) + length (commits a)
  = mBucketApplySuccess a + length (commits (commitOne l s o a))
  /\ mBucketApplyFailure (commitOne l s o a) = mBucketApplyFailure a.
Proof.
  destruct o as [b|]; simpl; [|lia].
  rewrite length_app. simpl. lia.
Qed.

Lemma committed_counts l k a :
  mBucketApplySuccess (committed l k a) + length (commits a)
  = mBucketApplySuccess a + length (commits (committed l k a))
  /\ mBucketApplyFailure (committed l k a) = mBucketApplyFailure a.
Proof.
  unfold committed.
  destruct (commitOne_counts l SNAP (mSnapBucket k) a) as [H1 H2].
  destruct (commitOne_counts l CURR (mCurrBucket k)
              (commitOne l SNAP (mSnapBucket k) a)) as [G1 G2].
  split; [lia|congruence].
Qed.

(** X1, the pool comes first: for a non-zero hash that the pool holds,
    [getBucket] answers from the pool entry alone and notes the pool
    lookup only, whatever the store holds; a null pointer in the pool
    fails the assertion even if the store knows the hash. *)
Theorem pool_takes_precedence (hash : string) (x : uint256)
    (p : option Bucket) (w : World) :
  hexToBin256 hash = Some x ->
  isZero x = false ->
  mBuckets !! hash = Some p ->
  getBucket hash w
  = match p with
    | Some b => Ok (b, noteLookups [PoolFind hash] w)
    | None => Throw MissingBucketError
    end
  /\ lookupsOf hash = [PoolFind hash].
Proof.
  intros Hx Hz Hp. rewrite getBucket_resolve. unfold resolve, lookupsOf.
  rewrite Hx, Hz, Hp. destruct p; split; reflexivity.
Qed.

(** X2, a target that is too short: when the target describes fewer
    levels than [kNumLevels], the first start-of-level hook of a run
    throws on [currentBuckets.at(mLevel)] and the run ends there. *)
Theorem short_target_aborts (fuel : nat) (a : Application) :
  length (currentBuckets mApplyState) < kNumLevels ->
  onStart (newWork a) = Throw OutOfRange
  /\ run (S fuel) a = Aborted OutOfRange.
Proof.
  intros Hlen.
  assert (H : onStart (newWork a) = Throw OutOfRange).
  { apply onStart_out_of_range. right. simpl.
    apply lookup_ge_None_2. lia. }
  split; [exact H|]. apply drive_start_throws, H.
Qed.

Lemma cursor_after_hook (h : Hook) (w w' : World) (r : option State) :
  invoke h w = Ok (r, w') ->
  0 < kNumLevels ->
  mLevel (work w) < kNumLevels ->
  length (bucketList (mApp w')) = length (bucketList (mApp w))
  /\ mLevel (work w') < kNumLevels
  /\ (h <> HReset -> mLevel (work w') <= mLevel (work w))
  /\ (mLevel (work w') < mLevel (work w) ->
      h = HSuccess /\ r = Some WORK_PENDING
      /\ mLevel (work w') = mLevel (work w) - 1).
Proof.
  intros H Hn Hl. destruct h; simpl in H; unmonad.
  - injection H as <- <-. simpl. repeat split; try lia. congruence.
  - destruct (onStart w) as [[u w1]|] eqn:Hst; [|discriminate].
    injection H as <- <-.
    destruct (onStart_frame _ _ _ Hst) as (Hbl & _ & _ & _ & _ & Hlv).
    rewrite Hbl, Hlv. repeat split; try lia.
  - destruct (onRun w) as [[u w1]|] eqn:Hrun; [|discriminate].
    injection H as <- <-.
    destruct (onRun_frame _ _ _ Hrun) as (Hbl & _ & _ & Hlv & _).
    rewrite Hbl, Hlv. repeat split; try lia.
  - destruct (onSuccess w) as [[st w1]|] eqn:Hsu; [|discriminate].
    injection H as <- <-.
    success_cases w Hsu; try discriminate;
      try (injection Hsu as <- <-; repeat split; lia).
    simpl in Hsu. injection Hsu as <- <-. simpl.
    destruct (committed_frame (mLevel (work w)) (work w) (mApp w))
      as (_ & _ & _ & _ & Hlen & _).
    destruct (mLevel (work w) =? 0)%nat eqn:Hz; simpl;
      repeat split; try lia; try exact Hlen; try reflexivity.
    apply Nat.eqb_eq in Hz. lia.
  - injection H as <- <-. simpl. repeat split; try lia.
  - injection H as <- <-. simpl. repeat split; try lia.
Qed.

(** X3, the cursor stays on the live list: with [kNumLevels] positive
    and at most the length of the live list, every hook keeps the length
    of the list and a cursor below [kNumLevels], so the cursor always
    names a level; only a reset can raise the cursor, and it goes down
    by one step at a time, at an end-of-level evaluation. *)
Theorem cursor_stays_in_range (h : Hook) (w w' : World) (r : option State) :
  invoke h w = Ok (r, w') ->
  0 < kNumLevels ->
  kNumLevels <= length (bucketList (mApp w)) ->
  mLevel (work w) < kNumLevels ->
  length (bucketList (mApp w')) = length (bucketList (mApp w))
  /\ mLevel (work w') < kNumLevels
  /\ is_Some (bucketList (mApp w') !! mLevel (work w'))
  /\ (h <> HReset -> mLevel (work w') <= mLevel (work w))
  /\ (mLevel (work w') < mLevel (work w) ->
      h = HSuccess /\ r = Some WORK_PENDING
      /\ mLevel (work w') = mLevel (work w) - 1).
Proof.
  intros H Hn Hlen Hl.
  destruct (cursor_after_hook h w w' r H Hn Hl) as (H1 & H2 & H3 & H4).
  repeat split; try assumption; try (apply H4; assumption).
  apply lookup_lt_is_Some_2. lia.
Qed.

(** X4, the flag is sticky: no hook but a reset clears [mApplying], and
    no hook but the start-of-level one sets it. *)
Theorem flag_is_sticky (h : Hook) (w w' : World) (r : option State) :
  invoke h w = Ok (r, w') ->
  (mApplying (work w) = true -> h <> HReset -> mApplying (work w') = true)
  /\ (mApplying (work w) = false -> mApplying (work w') = true ->
      h = HStart).
Proof.
  intros H. destruct h; simpl in H; unmonad.
  - injection H as <- <-. simpl. split; [congruence|discriminate].
  - destruct (onStart w) as [[u w1]|] eqn:Hst; [|discriminate].
    injection H as <- <-.
    split; [|reflexivity]. intros Ha _.
    apply (onStart_flag_and_meters _ _ _ Hst), Ha.
  - destruct (onRun w) as [[u w1]|] eqn:Hrun; [|discriminate].
    injection H as <- <-.
    destruct (onRun_frame _ _ _ Hrun) as (_ & _ & _ & _ & Ha & _).
    rewrite Ha. split; [auto|congruence].
  - destruct (onSuccess w) as [[st w1]|] eqn:Hsu; [|discriminate].
    injection H as <- <-.
    success_cases w Hsu; try discriminate;
      try (injection Hsu as <- <-; split; [auto|congruence]).
    simpl in Hsu. injection Hsu as <- <-. simpl. split; [auto|congruence].
  - injection H as <- <-. simpl. split; [auto|congruence].
  - injection H as <- <-. simpl. split; [auto|congruence].
Qed.


(** X5, one success mark per commit: under every hook the success meter
    and the record of [setSnap]/[setCurr] calls grow by the same amount,
    so the meter counts the buckets actually put into the live list. *)
Theorem success_meter_counts_commits
    (h : Hook) (w w' : World) (r : option State) :
  invoke h w = Ok (r, w') ->
  mBucketApplySuccess (mApp w') + length (commits (mApp w))
  = mBucketApplySuccess (mApp w) + length (commits (mApp w'))
  /\ exists more, commits (mApp w') = commits (mApp w) ++ more
                  /\ length more <= 2.
Proof.
  intros H. destruct h; simpl in H; unmonad.
  - injection H as <- <-. simpl. split; [lia|].
    exists []. rewrite app_nil_r. split; [reflexivity|simpl; lia].
  - destruct (onStart w) as [[u w1]|] eqn:Hst; [|discriminate].
    injection H as <- <-.
    destruct (onStart_frame _ _ _ Hst) as (_ & _ & _ & Hcs & Hm & _).
    rewrite Hcs, Hm. split; [lia|].
    exists []. rewrite app_nil_r. split; [reflexivity|simpl; lia].
  - destruct (onRun w) as [[u w1]|] eqn:Hrun; [|discriminate].
    injection H as <- <-.
    destruct (onRun_frame _ _ _ Hrun) as (_ & _ & Hcs & _).
    destruct (onRun_meters _ _ _ Hrun) as (_ & Hm & _).
    rewrite Hcs, Hm. split; [lia|].
    exists []. rewrite app_nil_r. split; [reflexivity|simpl; lia].
  - destruct (onSuccess w) as [[st w1]|] eqn:Hsu; [|discriminate].
    injection H as <- <-.
    success_cases w Hsu; try discriminate;
      try (injection Hsu as <- <-; split; [lia|]; exists [];
           rewrite app_nil_r; split; [reflexivity|simpl; lia]).
    simpl in Hsu. injection Hsu as <- <-.
    destruct (committed_counts (mLevel (work w)) (work w) (mApp w))
      as [Hcount _].
    destruct (committed_fields (mLevel (work w)) (mSnapBucket (work w))
                (mCurrBucket (work w)) (mApp w))
      as (_ & _ & _ & _ & _ & _ & Hcs).
    fold (committed (mLevel (work w)) (work w) (mApp w)) in Hcs.
    split.
    + destruct (mLevel (work w) =? 0)%nat; simpl; exact Hcount.
    + exists (commitsOf (mLevel (work w)) SNAP (mSnapBucket (work w))
              ++ commitsOf (mLevel (work w)) CURR (mCurrBucket (work w))).
      split.
      * destruct (mLevel (work w) =? 0)%nat; simpl; exact Hcs.
      * rewrite length_app.
        destruct (mSnapBucket (work w)), (mCurrBucket (work w)); simpl; lia.
  - injection H as <- <-. simpl. split; [lia|].
    exists []. rewrite app_nil_r. split; [reflexivity|simpl; lia].
  - injection H as <- <-. simpl. split; [lia|].
    exists []. rewrite app_nil_r. split; [reflexivity|simpl; lia].
Qed.

(** X6, the database is only appended to, and only by the step hook:
    every hook leaves the entries already applied in place, and a hook
    other than [onRun] adds none. *)
Theorem database_is_append_only (h : Hook) (w w' : World) (r : option State) :
  invoke h w = Ok (r, w') ->
  exists more,
    database (mApp w') = database (mApp w) ++ more
    /\ length more <= batchSize
    /\ (h <> HRun -> more = []).
Proof.
  intros H.
  assert (Hsame : database (mApp w') = database (mApp w) ->
            exists more, database (mApp w') = database (mApp w) ++ more
                         /\ length more <= batchSize
                         /\ (h <> HRun -> more = [])).
  { intros E. exists []. rewrite app_nil_r.
    split; [exact E|]. split; [simpl; lia|reflexivity]. }
  destruct h; simpl in H; unmonad.
  - injection H as <- <-. apply Hsame. reflexivity.
  - destruct (onStart w) as [[u w1]|] eqn:Hst; [|discriminate].
    injection H as <- <-. apply Hsame, (onStart_frame _ _ _ Hst).
  - destruct (onRun w) as [[u w1]|] eqn:Hrun; [|discriminate].
    injection H as <- <-. clear Hsame. rewrite onRun_cases in Hrun.
    injection Hrun as Hw1. subst w1.
    assert (Hlen : forall l : list BucketEntry,
              length (take batchSize l) <= batchSize)
      by (intros l; rewrite length_take; lia).
    unfold advanceSnap, advanceCurr.
    destruct (active (mSnapApplicator (work w))).
    + destruct (mSnapApplicator (work w)) as [x|]; simpl.
      * eexists. split; [reflexivity|]. split; [apply Hlen|congruence].
      * exists []. rewrite app_nil_r.
        split; [reflexivity|]. split; [simpl; lia|reflexivity].
    + destruct (active (mCurrApplicator (work w))).
      * destruct (mCurrApplicator (work w)) as [x|]; simpl.
        -- eexists. split; [reflexivity|]. split; [apply Hlen|congruence].
        -- exists []. rewrite app_nil_r.
           split; [reflexivity|]. split; [simpl; lia|reflexivity].
      * exists []. rewrite app_nil_r.
        split; [reflexivity|]. split; [simpl; lia|reflexivity].
  - destruct (onSuccess w) as [[st w1]|] eqn:Hsu; [|discriminate].
    injection H as <- <-.
    success_cases w Hsu; try discriminate;
      try (injection Hsu as <- <-; apply Hsame; reflexivity).
    simpl in Hsu. injection Hsu as <- <-. apply Hsame. simpl.
    destruct (committed_frame (mLevel (work w)) (work w) (mApp w))
      as (Hdb & _).
    destruct (mLevel (work w) =? 0)%nat; simpl; exact Hdb.
  - injection H as <- <-. apply Hsame. reflexivity.
  - injection H as <- <-. apply Hsame. reflexivity.
Qed.

(** X7, the failure meter belongs to the failure hooks: each of the two
    marks it once and touches nothing else, and no other hook moves it. *)
Theorem failure_meter_marks (h : Hook) (w w' : World) (r : option State) :
  invoke h w = Ok (r, w') ->
  (h = HFailureRetry \/ h = HFailureRaise ->
   mBucketApplyFailure (mApp w') = S (mBucketApplyFailure (mApp w))
   /\ work w' = work w
   /\ bucketList (mApp w') = bucketList (mApp w)
   /\ database (mApp w') = database (mApp w)
   /\ mBucketApplyStart (mApp w') = mBucketApplyStart (mApp w)
   /\ mBucketApplySuccess (mApp w') = mBucketApplySuccess (mApp w))
  /\ (h <> HFailureRetry -> h <> HFailureRaise ->
      mBucketApplyFailure (mApp w') = mBucketApplyFailure (mApp w)).
Proof.
  intros H. destruct h; simpl in H; unmonad.
  - injection H as <- <-. simpl. split; [intros [E|E]; discriminate E|auto].
  - destruct (onStart w) as [[u w1]|] eqn:Hst; [|discriminate].
    injection H as <- <-. split; [intros [E|E]; discriminate E|].
    intros _ _. apply (onStart_flag_and_meters _ _ _ Hst).
  - destruct (onRun w) as [[u w1]|] eqn:Hrun; [|discriminate].
    injection H as <- <-. split; [intros [E|E]; discriminate E|].
    intros _ _. apply (onRun_meters _ _ _ Hrun).
  - destruct (onSuccess w) as [[st w1]|] eqn:Hsu; [|discriminate].
    injection H as <- <-. split; [intros [E|E]; discriminate E|].
    intros _ _.
    success_cases w Hsu; try discriminate;
      try (injection Hsu as <- <-; reflexivity).
    simpl in Hsu. injection Hsu as <- <-. simpl.
    destruct (committed_counts (mLevel (work w)) (work w) (mApp w))
      as [_ Hf].
    destruct (mLevel (work w) =? 0)%nat; simpl; exact Hf.
  - injection H as <- <-. simpl. split; [tauto|congruence].
  - injection H as <- <-. simpl. split; [tauto|congruence].
Qed.


(** ** Further properties of a run *)

Lemma level_commits l sb cb :
  let cs := commitsOf l SNAP sb ++ commitsOf l CURR cb in
  StronglySorted commitBefore cs
  /\ Forall (fun c => commitLevel c = l) cs
  /\ length cs = count sb + count cb
  /\ appliedBy cs = entriesOf sb ++ entriesOf cb.
Proof.
  assert (Hone : forall c : Commit, StronglySorted commitBefore [c])
    by (intros c; repeat constructor).
  destruct sb as [bs|], cb as [bc|]; simpl; unfold appliedBy; simpl;
    rewrite ?app_nil_r; repeat split;
    try apply Hone; try apply SSorted_nil;
    try (repeat constructor; fail).
Qed.

(** The books of a walk: what it commits, in which order, and what that
    does to the database and to the meters. *)
Lemma walk_account n :
  forall w w', idle (work w) -> walk n w = Finished w' ->
    exists cs,
      commits (mApp w') = commits (mApp w) ++ cs
      /\ database (mApp w') = database (mApp w) ++ appliedBy cs
      /\ mBucketApplyStart (mApp w') = mBucketApplyStart (mApp w) + length cs
      /\ mBucketApplySuccess (mApp w')
         = mBucketApplySuccess (mApp w) + length cs
      /\ StronglySorted commitBefore cs
      /\ Forall (fun c => commitLevel c <= mLevel (work w)) cs.
Proof.
  induction n as [|n IH]; intros w w' Hidle H; [discriminate|].
  rewrite walk_S in H.
  destruct (wholeLevel w) as [[st w1]|] eqn:Hw; [|discriminate].
  pose proof (wholeLevel_keeps_idle _ _ _ Hidle Hw) as Hidle1.
  destruct (wholeLevel_idle w st w1 Hidle Hw)
    as (lev & i & sb & cb & _ & _ & _ & _ & Hst & Hwork & _ & Hdb & Hm1
        & Hm2 & _ & Hcs & _).
  destruct (level_commits (mLevel (work w)) sb cb)
    as (Hsorted & Hlevel & Hlen & Happlied).
  set (cs0 := commitsOf (mLevel (work w)) SNAP sb
              ++ commitsOf (mLevel (work w)) CURR cb) in *.
  assert (Hle0 : Forall (fun c => commitLevel c <= mLevel (work w)) cs0).
  { eapply Forall_impl; [exact Hlevel|]. simpl. intros c ->. lia. }
  assert (E1 : commits (mApp w1) = commits (mApp w) ++ cs0) by exact Hcs.
  assert (E2 : database (mApp w1) = database (mApp w) ++ appliedBy cs0)
    by (rewrite Happlied; exact Hdb).
  assert (E3 : mBucketApplyStart (mApp w1)
               = mBucketApplyStart (mApp w) + length cs0)
    by (rewrite Hlen; lia).
  assert (E4 : mBucketApplySuccess (mApp w1)
               = mBucketApplySuccess (mApp w) + length cs0)
    by (rewrite Hlen; lia).
  clear Hcs Hdb Hm1 Hm2 Hlen Happlied.
  destruct (mLevel (work w) =? 0)%nat eqn:Hz; subst st; simpl in H.
  - injection H as <-. exists cs0. repeat split; assumption.
  - apply Nat.eqb_neq in Hz.
    destruct (IH w1 w' Hidle1 H)
      as (cs1 & Hc1 & Hd1 & Hs1 & Hu1 & Hsorted1 & Hle1).
    rewrite Hwork in Hle1. simpl in Hle1.
    exists (cs0 ++ cs1).
    rewrite Hc1, Hd1, Hs1, Hu1, E1, E2, E3, E4.
    unfold appliedBy. rewrite flat_map_app, length_app, <- !app_assoc.
    repeat split; try lia.
    + apply StronglySorted_app_2; [|exact Hsorted|exact Hsorted1].
      intros c0 c1 Hin0 Hin1. left.
      rewrite Forall_forall in Hlevel, Hle1.
      rewrite (Hlevel c0 Hin0). pose proof (Hle1 c1 Hin1). lia.
    + apply Forall_app. split; [exact Hle0|].
      eapply Forall_impl; [exact Hle1|]. simpl. intros c Hc. lia.
Qed.


(** X8, the books of a run: a run that completes has marked the start
    and the success meter once for each of its commits, and has applied
    to the database exactly the entries of the committed buckets, whole
    and in the order of the commits. *)
Theorem run_applies_what_it_commits
    (fuel : nat) (a : Application) (w' : World) :
  run fuel a = Finished w' ->
  exists cs,
    commits (mApp w') = commits a ++ cs
    /\ database (mApp w') = database a ++ appliedBy cs
    /\ mBucketApplyStart (mApp w') = mBucketApplyStart a + length cs
    /\ mBucketApplySuccess (mApp w') = mBucketApplySuccess a + length cs.
Proof.
  intros Hrun.
  destruct (proj2 (drive_finishes_as_walk fuel) _ _ Hrun) as [n Hn].
  destruct (walk_account n (newWork a) w' (idle_mkWork _ _) Hn)
    as (cs & Hc & Hd & Hs & Hu & _).
  exists cs. repeat split; assumption.
Qed.

Lemma commitBefore_rank c1 c2 :
  commitBefore c1 c2 -> commitRank c2 < commitRank c1.
Proof.
  unfold commitBefore, commitRank.
  intros [H|(H1 & H2 & H3)].
  - destruct (commitSlot c1), (commitSlot c2); lia.
  - rewrite H1, H2, H3. lia.
Qed.

(** A list in walk order is no longer than the rank of its head allows. *)
Lemma sorted_commits_length cs :
  StronglySorted commitBefore cs ->
  forall r, Forall (fun c => commitRank c <= r) cs -> length cs <= S r.
Proof.
  induction 1 as [|c cs Hsorted IH Hall]; intros r Hr; simpl; [lia|].
  apply Forall_cons in Hr as [Hc Hr].
  destruct cs as [|c' cs']; [simpl; lia|].
  assert (Hlt : Forall (fun x => commitRank x <= commitRank c - 1) (c' :: cs')).
  { eapply Forall_impl; [exact Hall|]. simpl. intros x Hx.
    apply commitBefore_rank in Hx. lia. }
  pose proof (IH _ Hlt) as Hlen.
  apply Forall_cons in Hall as [Hc' _]. apply commitBefore_rank in Hc'.
  lia.
Qed.

(** X9, commits come in walk order: the commits of a run that completes
    go from the coarsest level to the finest, the snap bucket of a level
    before its curr bucket, each level and slot at most once; so there
    are at most two per level. *)
Theorem run_commits_in_walk_order
    (fuel : nat) (a : Application) (w' : World) :
  run fuel a = Finished w' ->
  0 < kNumLevels ->
  exists cs,
    commits (mApp w') = commits a ++ cs
    /\ StronglySorted commitBefore cs
    /\ Forall (fun c => commitLevel c < kNumLevels) cs
    /\ length cs <= 2 * kNumLevels.
Proof.
  intros Hrun HN.
  destruct (proj2 (drive_finishes_as_walk fuel) _ _ Hrun) as [n Hn].
  destruct (walk_account n (newWork a) w' (idle_mkWork _ _) Hn)
    as (cs & Hc & _ & _ & _ & Hsorted & Hle).
  simpl in Hle. exists cs. repeat split; try assumption.
  - eapply Forall_impl; [exact Hle|]. simpl. intros c Hc'. lia.
  - assert (Hr : Forall (fun c => commitRank c <= 2 * (kNumLevels - 1) + 1) cs).
    { eapply Forall_impl; [exact Hle|]. simpl. intros c Hc'.
      unfold commitRank. destruct (commitSlot c); lia. }
    pose proof (sorted_commits_length cs Hsorted _ Hr). lia.
Qed.

(** The walk keeps the length of the live list. *)
Lemma walk_length n :
  forall w w', idle (work w) -> walk n w = Finished w' ->
    length (bucketList (mApp w')) = length (bucketList (mApp w)).
Proof.
  induction n as [|n IH]; intros w w' Hidle H; [discriminate|].
  rewrite walk_S in H.
  destruct (wholeLevel w) as [[st w1]|] eqn:Hw; [|discriminate].
  destruct (wholeLevel_idle w st w1 Hidle Hw)
    as (lev & i & sb & cb & _ & _ & _ & _ & _ & _ & Hbl & _).
  assert (Hlen : length (bucketList (mApp w1))
                 = length (bucketList (mApp w)))
    by (rewrite Hbl; apply length_insert).
  destruct st; simpl in H; try discriminate.
  - rewrite <- Hlen.
    apply (IH w1 w' (wholeLevel_keeps_idle _ _ _ Hidle Hw) H).
  - injection H as <-. exact Hlen.
Qed.

(** With faithful resolution, every level the walk has visited carries
    the target's hashes at the end. *)
Lemma walk_matches n :
  faithful ->
  forall w w', idle (work w) -> walk n w = Finished w' ->
    forall l lev, l <= mLevel (work w) ->
      bucketList (mApp w') !! l = Some lev ->
      exists i, currentBuckets mApplyState !! l = Some i
        /\ snap i = binToHex (getHash (getSnap lev))
        /\ curr i = binToHex (getHash (getCurr lev)).
Proof.
  intros Hfaith.
  induction n as [|n IH]; intros w w' Hidle H l lev Hl Hlk; [discriminate|].
  rewrite walk_S in H.
  destruct (wholeLevel w) as [[st w1]|] eqn:Hw; [|discriminate].
  pose proof (wholeLevel_keeps_idle _ _ _ Hidle Hw) as Hidle1.
  destruct (wholeLevel_idle w st w1 Hidle Hw)
    as (lev0 & i & sb & cb & Hlev & Hi & Hps & Hpc & Hst & Hwork & Hbl & _).
  pose proof (lookup_lt_Some _ _ _ Hlev) as Hlt.
  destruct (Hfaith _ _ Hi) as [Hfs Hfc].
  (* the cursor's level as this level leaves it *)
  assert (Hown : forall lev1,
            bucketList (mApp w1) !! mLevel (work w) = Some lev1 ->
            snap i = binToHex (getHash (getSnap lev1))
            /\ curr i = binToHex (getHash (getCurr lev1))).
  { intros lev1. rewrite Hbl, list_lookup_insert_eq by exact Hlt.
    intros [= <-]. simpl. split.
    - destruct sb as [bs|]; simpl in *.
      + apply Hfs, Hps.
      + apply orb_false_iff in Hps as [_ Hd]. apply differs_false, Hd.
    - destruct cb as [bc|]; simpl in *.
      + apply Hfc, Hpc.
      + apply orb_false_iff in Hpc as [_ Hd]. apply differs_false, Hd. }
  destruct (mLevel (work w) =? 0)%nat eqn:Hz; subst st; simpl in H.
  - injection H as <-. apply Nat.eqb_eq in Hz.
    replace l with (mLevel (work w)) in * by lia.
    exists i. split; [exact Hi|]. apply Hown, Hlk.
  - apply Nat.eqb_neq in Hz.
    destruct (Nat.eq_dec l (mLevel (work w))) as [->|Hne].
    + exists i. split; [exact Hi|]. apply Hown.
      rewrite <- (walk_frame_above n w1 w' Hidle1 H); [exact Hlk|].
      rewrite Hwork. simpl. lia.
    + apply (IH w1 w' Hidle1 H l lev); [|exact Hlk].
      rewrite Hwork. simpl. lia.
Qed.

(** X10, the live list ends on the target, and a second run is a no-op:
    when the buckets resolved for the target carry the hashes they were
    asked under, a run that completes leaves every level of the live
    list with the target's snap and curr hash; running again from there
    completes in one cycle per level and only installs the head again. *)
Theorem run_reaches_target (fuel : nat) (a : Application) (w' : World) :
  run fuel a = Finished w' ->
  0 < kNumLevels ->
  length (bucketList a) = kNumLevels ->
  faithful ->
  matchesTarget (bucketList (mApp w'))
  /\ length (bucketList (mApp w')) = kNumLevels
  /\ run kNumLevels (mApp w')
     = Finished (idleAt false 0 (assumeState mApplyState (mApp w'))).
Proof.
  intros Hrun HN Hlen Hfaith.
  destruct (proj2 (drive_finishes_as_walk fuel) _ _ Hrun) as [n Hn].
  pose proof (walk_length n (newWork a) w' (idle_mkWork _ _) Hn) as Hlen'.
  simpl in Hlen'. rewrite Hlen in Hlen'.
  assert (Hmatch : matchesTarget (bucketList (mApp w'))).
  { intros l lev Hlk.
    apply (walk_matches n Hfaith (newWork a) w' (idle_mkWork _ _) Hn l lev);
      [|exact Hlk].
    apply lookup_lt_Some in Hlk. simpl. lia. }
  split; [exact Hmatch|]. split; [exact Hlen'|].
  unfold run, newWork, initialWork.
  replace kNumLevels with (S (kNumLevels - 1)) at 1 by lia.
  apply (drive_matching (kNumLevels - 1) (mApp w')); [lia|exact Hmatch].
Qed.


(** ** How many cycles a run takes *)

(** The stepping of a level takes at most one cycle per entry still to
    apply, and then the cycle of the evaluation. *)
Lemma stepping_bounded (m : nat) :
  0 < batchSize ->
  forall w, backlog w <= m ->
    exists f, f <= m /\ forall k,
      drive (S f + k) WORK_RUNNING w = proceed k (onSuccess (exhaust w)).
Proof.
  intros Hb. induction m as [|m IH]; intros w Hm.
  - assert (Hs : active (mSnapApplicator (work w)) = false).
    { destruct (active (mSnapApplicator (work w))) eqn:E; [|reflexivity].
      apply active_true_rest in E. unfold backlog in Hm. lia. }
    assert (Hc : active (mCurrApplicator (work w)) = false).
    { destruct (active (mCurrApplicator (work w))) eqn:E; [|reflexivity].
      apply active_true_rest in E. unfold backlog in Hm. lia. }
    exists 0. split; [lia|]. intros k. simpl plus.
    rewrite drive_S, cycle_running, Hs, Hc, (exhaust_settled w Hs Hc).
    reflexivity.
  - set (w1 := if active (mSnapApplicator (work w)) then advanceSnap w
               else if active (mCurrApplicator (work w)) then advanceCurr w
               else w).
    assert (Hex : exhaust w1 = exhaust w).
    { unfold w1. destruct (active (mSnapApplicator (work w))) eqn:Hs;
        [apply exhaust_advanceSnap, Hs|].
      destruct (active (mCurrApplicator (work w))) eqn:Hc;
        [apply exhaust_advanceCurr; assumption|reflexivity]. }
    assert (Hlt : active (mSnapApplicator (work w1))
                  || active (mCurrApplicator (work w1)) = true ->
                  backlog w1 <= m).
    { unfold w1. destruct (active (mSnapApplicator (work w))) eqn:Hs.
      - intros _. pose proof (backlog_advanceSnap w Hb Hs). lia.
      - destruct (active (mCurrApplicator (work w))) eqn:Hc.
        + intros _. pose proof (backlog_advanceCurr w Hb Hc). lia.
        + rewrite Hs, Hc. discriminate. }
    assert (Hcyc : cycle WORK_RUNNING w = onSuccess w1)
      by apply cycle_running.
    clearbody w1.
    destruct (active (mSnapApplicator (work w1))
              || active (mCurrApplicator (work w1))) eqn:Hact.
    + destruct (IH w1 (Hlt eq_refl)) as (f & Hf & Hdrive).
      exists (S f). split; [lia|]. intros k.
      change (S (S f) + k) with (S (S f + k)).
      rewrite drive_S, Hcyc, (onSuccess_running w1 Hact).
      change (proceed (S f + k) (Ok (WORK_RUNNING, w1)))
        with (drive (S f + k) WORK_RUNNING w1).
      rewrite Hdrive, Hex. reflexivity.
    + apply orb_false_iff in Hact as [Hs Hc]. exists 0.
      split; [lia|]. intros k.
      simpl plus. rewrite drive_S, Hcyc, <- Hex.
      rewrite (exhaust_settled w1 Hs Hc). reflexivity.
Qed.

(** The end-of-level evaluation leaves the database alone. *)
Lemma onSuccess_database w st w' :
  onSuccess w = Ok (st, w') -> database (mApp w') = database (mApp w).
Proof.
  intros H. success_cases w H; try discriminate;
    try (injection H as <- <-; reflexivity).
  simpl in H. injection H as <- <-. simpl.
  destruct (committed_frame (mLevel (work w)) (work w) (mApp w)) as (Hdb & _).
  destruct (mLevel (work w) =? 0)%nat; simpl; exact Hdb.
Qed.

(** A level takes at most one cycle more than the entries it applies. *)
Lemma level_bounded w st w' :
  0 < batchSize ->
  wholeLevel w = Ok (st, w') ->
  exists f,
    f + length (database (mApp w)) <= length (database (mApp w'))
    /\ forall k, drive (S f + k) WORK_PENDING w = proceed k (Ok (st, w')).
Proof.
  intros Hb. rewrite wholeLevel_eq.
  destruct (onStart w) as [[u w1]|] eqn:Hst; [|discriminate].
  intros Hsu.
  destruct (stepping_bounded (backlog w1) Hb w1 (le_n _)) as (f & Hf & Hd).
  exists f. split.
  - rewrite (onSuccess_database _ _ _ Hsu). simpl.
    destruct (onStart_frame _ _ _ Hst) as (_ & Hdb & _).
    rewrite Hdb, !length_app. unfold backlog in Hf. lia.
  - intros k. rewrite <- Hsu, <- Hd.
    change (S f + k) with (S (f + k)).
    rewrite !drive_S, cycle_pending, Hst. reflexivity.
Qed.

Lemma walk_driven_bounded (n : nat) :
  0 < batchSize ->
  forall w w', walk n w = Finished w' ->
    exists fuel,
      drive fuel WORK_PENDING w = Finished w'
      /\ fuel + length (database (mApp w))
         <= n + length (database (mApp w')).
Proof.
  intros Hb. induction n as [|n IH]; intros w w' H; [discriminate|].
  rewrite walk_S in H.
  destruct (wholeLevel w) as [[st w1]|] eqn:Hw; [|discriminate].
  destruct (level_bounded w st w1 Hb Hw) as (f & Hf & Hd).
  destruct st; simpl in H; try discriminate.
  - destruct (IH _ _ H) as (fuel & Hfuel & Hle). exists (S f + fuel).
    split; [|lia]. rewrite Hd. simpl. exact Hfuel.
  - injection H as <-. exists (S f + 0).
    split; [|lia]. rewrite Hd. reflexivity.
Qed.

(** X11, a run completes, and within bounds: with a positive batch
    size, a live list of at least [kNumLevels] levels and a target whose
    hashes all resolve, the driver reaches success after at most one
    cycle per level and one per entry applied to the database. *)
Theorem run_completes_within (a : Application) :
  0 < batchSize ->
  0 < kNumLevels ->
  kNumLevels <= length (bucketList a) ->
  resolvable kNumLevels ->
  exists fuel w',
    run fuel a = Finished w'
    /\ fuel + length (database a)
       <= kNumLevels + length (database (mApp w')).
Proof.
  intros Hb Hn Hlen Hres.
  destruct (walk_total (kNumLevels - 1) (newWork a)) as [w' Hw'].
  - reflexivity.
  - apply idle_mkWork.
  - simpl. lia.
  - replace (S (kNumLevels - 1)) with kNumLevels by lia. exact Hres.
  - destruct (walk_driven_bounded _ Hb _ _ Hw') as (fuel & Hfuel & Hle).
    exists fuel, w'. split; [exact Hfuel|]. simpl in Hle. lia.
Qed.


(** ** What is applied is what is committed *)

Lemma paired_fresh b : paired (Some b) (Some (makeApplicator b)).
Proof. simpl. split; [reflexivity|]. exists []. reflexivity. Qed.

Lemma paired_advance b a :
  paired (Some b) (Some a) ->
  paired (Some b)
         (Some (mkApplicator (appBucket a) (drop batchSize (appRest a)))).
Proof.
  simpl. intros [Hb [done Hd]]. split; [exact Hb|].
  exists (done ++ take batchSize (appRest a)).
  rewrite <- app_assoc, take_drop. exact Hd.
Qed.

Lemma slotsPaired_invoke (h : Hook) (w w' : World) (r : option State) :
  slotsPaired (work w) -> invoke h w = Ok (r, w') -> slotsPaired (work w').
Proof.
  intros [Hs Hc] H. destruct h; simpl in H; unmonad.
  - injection H as <- <-. split; exact I.
  - destruct (onStart w) as [[u w1]|] eqn:Hst; [|discriminate].
    injection H as <- <-.
    destruct (onStart_shapes _ _ _ Hst)
      as [->|[(bc & ls & ->)|(bs & bc & ls1 & ls2 & ->)]].
    + split; assumption.
    + split; simpl; rewrite ?noteLookups_work; [exact Hs|].
      split; [reflexivity|]. exists []. reflexivity.
    + split; simpl; rewrite ?noteLookups_work; simpl;
        rewrite ?noteLookups_work; simpl;
        (split; [reflexivity|]); exists []; reflexivity.
  - destruct (onRun w) as [[u w1]|] eqn:Hrun; [|discriminate].
    injection H as <- <-. rewrite onRun_cases in Hrun.
    injection Hrun as Hw1. subst w1.
    destruct (active (mSnapApplicator (work w))).
    + unfold advanceSnap.
      destruct (mSnapApplicator (work w)) as [x|] eqn:Hx;
        [|split; [rewrite Hx|]; assumption].
      split; simpl; [|exact Hc].
      destruct (mSnapBucket (work w)) as [b|]; [|contradiction].
      exact (paired_advance b x Hs).
    + destruct (active (mCurrApplicator (work w)));
        [|split; assumption].
      unfold advanceCurr.
      destruct (mCurrApplicator (work w)) as [x|] eqn:Hx;
        [|split; [|rewrite Hx]; assumption].
      split; simpl; [exact Hs|].
      destruct (mCurrBucket (work w)) as [b|]; [|contradiction].
      exact (paired_advance b x Hc).
  - destruct (onSuccess w) as [[st w1]|] eqn:Hsu; [|discriminate].
    injection H as <- <-.
    success_cases w Hsu; try discriminate;
      try (injection Hsu as <- <-; split; assumption).
    simpl in Hsu. injection Hsu as <- <-. split; exact I.
  - injection H as <- <-. split; assumption.
  - injection H as <- <-. split; assumption.
Qed.

(** X12, what is applied is what is committed: in every reachable
    world each slot of the work holds either nothing, or a bucket
    together with an applicator over that very bucket whose remaining
    entries are a tail of the bucket's; so the bucket that an
    end-of-level evaluation commits is the one whose entries went to
    the database. *)
Theorem applicator_follows_bucket (w : World) :
  reachable w ->
  slotsPaired (work w)
  /\ (active (mSnapApplicator (work w)) = true ->
      is_Some (mSnapBucket (work w)))
  /\ (active (mCurrApplicator (work w)) = true ->
      is_Some (mCurrBucket (work w))).
Proof.
  intros Hr.
  assert (Hp : slotsPaired (work w)).
  { induction Hr as [a|h w w' r Hr IH H].
    - split; exact I.
    - eapply slotsPaired_invoke; eauto. }
  split; [exact Hp|]. destruct Hp as [Hs Hc]. unfold paired in Hs, Hc.
  split; intros Ha.
  - destruct (mSnapBucket (work w)); [eauto|].
    destruct (mSnapApplicator (work w)); [contradiction|discriminate].
  - destruct (mCurrBucket (work w)); [eauto|].
    destruct (mCurrApplicator (work w)); [contradiction|discriminate].
Qed.

(** The commits of a walk never replace a snap bucket alone. *)
Lemma walk_snap_with_curr n :
  forall w w', idle (work w) -> walk n w = Finished w' ->
    exists cs,
      commits (mApp w') = commits (mApp w) ++ cs
      /\ forall l bs, In (mkCommit l SNAP bs) cs ->
           exists bc, In (mkCommit l CURR bc) cs.
Proof.
  induction n as [|n IH]; intros w w' Hidle H; [discriminate|].
  rewrite walk_S in H.
  destruct (wholeLevel w) as [[st w1]|] eqn:Hw; [|discriminate].
  pose proof (wholeLevel_keeps_idle _ _ _ Hidle Hw) as Hidle1.
  destruct (wholeLevel_idle w st w1 Hidle Hw)
    as (lev & i & sb & cb & _ & _ & Hps & Hpc & Hst & _ & _ & _ & _
        & _ & _ & Hcs & _).
  assert (Hhere : forall l bs,
            In (mkCommit l SNAP bs)
               (commitsOf (mLevel (work w)) SNAP sb
                ++ commitsOf (mLevel (work w)) CURR cb) ->
            exists bc,
              In (mkCommit l CURR bc)
                 (commitsOf (mLevel (work w)) SNAP sb
                  ++ commitsOf (mLevel (work w)) CURR cb)).
  { intros l bs Hin. apply in_app_or in Hin as [Hin|Hin].
    - destruct sb as [bs'|]; [|contradiction].
      destruct Hin as [[= <- <-]|[]].
      destruct Hps as [Hn _]. rewrite Hn in Hpc. simpl in Hpc.
      destruct (planned_true _ _ Hpc) as (bc & -> & _).
      exists bc. apply in_or_app. right. left. reflexivity.
    - destruct cb as [bc'|]; [|contradiction].
      destruct Hin as [E|[]]. discriminate E. }
  destruct st; simpl in H; try discriminate.
  - destruct (IH w1 w' Hidle1 H) as (cs1 & Hc1 & Hp1).
    eexists. split; [rewrite Hc1, Hcs, <- app_assoc; reflexivity|].
    intros l bs Hin. apply in_app_or in Hin as [Hin|Hin].
    + destruct (Hhere l bs Hin) as [bc Hbc].
      exists bc. apply in_or_app. left. exact Hbc.
    + destruct (Hp1 l bs Hin) as [bc Hbc].
      exists bc. apply in_or_app. right. exact Hbc.
  - injection H as <-. eexists. split; [exact Hcs|exact Hhere].
Qed.

(** X13, never the snap bucket alone: in a run that completes, a level
    whose snap bucket was replaced had its curr bucket replaced too;
    the curr bucket alone can be replaced, as on the first level that
    differs. *)
Theorem snap_never_replaced_alone
    (fuel : nat) (a : Application) (w' : World) :
  run fuel a = Finished w' ->
  exists cs,
    commits (mApp w') = commits a ++ cs
    /\ forall l bs, In (mkCommit l SNAP bs) cs ->
         exists bc, In (mkCommit l CURR bc) cs.
Proof.
  intros Hrun.
  destruct (proj2 (drive_finishes_as_walk fuel) _ _ Hrun) as [n Hn].
  exact (walk_snap_with_curr n (newWork a) w' (idle_mkWork _ _) Hn).
Qed.


(** X14, a malformed hash text: [getBucket] decodes the text before it
    looks anywhere, so a text that [hexToBin256] rejects throws with no
    lookup made, even when the pool holds an entry under that very
    text; a start-of-level hook that has to resolve it ends the run. *)
Theorem malformed_hash_throws (hash : string) :
  hexToBin256 hash = None ->
  (forall w, getBucket hash w = Throw RuntimeError)
  /\ lookupsOf hash = []
  /\ (forall w lev i fuel,
        bucketList (mApp w) !! mLevel (work w) = Some lev ->
        currentBuckets mApplyState !! mLevel (work w) = Some i ->
        snap i = hash ->
        mApplying (work w) || differs (snap i) (getSnap lev) = true ->
        drive (S fuel) WORK_PENDING w = Aborted RuntimeError).
Proof.
  intros Hx.
  assert (Hr : resolve hash = Throw RuntimeError)
    by (unfold resolve; rewrite Hx; reflexivity).
  split; [|split].
  - intros w. rewrite getBucket_resolve, Hr. reflexivity.
  - unfold lookupsOf. rewrite Hx. reflexivity.
  - intros w lev i fuel Hlev Hi Hs Hn. apply drive_start_throws.
    rewrite (onStart_at w lev i Hlev Hi), Hn, startSnap_resolve, Hs, Hr.
    reflexivity.
Qed.


(** ** The start-of-level test, by its outcome *)

(** What [onStart] returns with the flag clear: by the two string
    tests, both buckets resolved and started, the curr bucket alone, or
    the world as it was. *)
Lemma onStart_outcome w lev i :
  bucketList (mApp w) !! mLevel (work w) = Some lev ->
  currentBuckets mApplyState !! mLevel (work w) = Some i ->
  mApplying (work w) = false ->
  onStart w
  = if differs (snap i) (getSnap lev) then
      match resolve (snap i) with
      | Ok bs =>
          match resolve (curr i) with
          | Ok bc =>
              Ok (tt, withCurr bc
                        (noteLookups (lookupsOf (curr i))
                           (withSnap bs
                              (noteLookups (lookupsOf (snap i)) w))))
          | Throw e => Throw e
          end
      | Throw e => Throw e
      end
    else if differs (curr i) (getCurr lev) then
      match resolve (curr i) with
      | Ok bc => Ok (tt, withCurr bc (noteLookups (lookupsOf (curr i)) w))
      | Throw e => Throw e
      end
    else Ok (tt, w).
Proof.
  intros Hlev Hi Ha. rewrite (onStart_at w lev i Hlev Hi), Ha. simpl.
  destruct (differs (snap i) (getSnap lev)).
  - rewrite startSnap_resolve.
    destruct (resolve (snap i)) as [bs|]; [|reflexivity]. simpl.
    rewrite startCurr_resolve.
    destruct (resolve (curr i)) as [bc|]; reflexivity.
  - rewrite Ha. simpl. destruct (differs (curr i) (getCurr lev)).
    + rewrite startCurr_resolve.
      destruct (resolve (curr i)) as [bc|]; reflexivity.
    + reflexivity.
Qed.

(** The level as a whole when only its curr text differs: the resolved
    bucket is put into the live list. *)
Lemma level_replaces_curr w lev i b :
  idle (work w) ->
  bucketList (mApp w) !! mLevel (work w) = Some lev ->
  currentBuckets mApplyState !! mLevel (work w) = Some i ->
  mApplying (work w) = false ->
  snap i = binToHex (getHash (getSnap lev)) ->
  curr i <> binToHex (getHash (getCurr lev)) ->
  resolve (curr i) = Ok b ->
  exists w',
    wholeLevel w
    = Ok (if (mLevel (work w) =? 0)%nat then WORK_SUCCESS else WORK_PENDING,
          w')
    /\ mApplying (work w') = true
    /\ bucketList (mApp w')
       = <[mLevel (work w) := mkLevel b (getSnap lev)]> (bucketList (mApp w))
    /\ commits (mApp w')
       = commits (mApp w) ++ [mkCommit (mLevel (work w)) CURR b]
    /\ mBucketApplyStart (mApp w') = S (mBucketApplyStart (mApp w))
    /\ mBucketApplySuccess (mApp w') = S (mBucketApplySuccess (mApp w))
    /\ database (mApp w') = database (mApp w) ++ getEntries b.
Proof.
  intros Hidle Hlev Hi Ha Hs Hc Hr.
  apply differs_false in Hs. apply differs_true in Hc.
  destruct (wholeLevel_planned w lev i None (Some b) Hidle Hlev Hi)
    as (w' & Hw & Hwork & Hbl & Hdb & Hm1 & Hm2 & Hcs).
  - rewrite Ha, Hs. reflexivity.
  - rewrite Ha, Hs, Hc. split; [reflexivity|exact Hr].
  - exists w'. rewrite Hwork, Ha, Hs, Hc. simpl in *.
    repeat split; try assumption; lia.
Qed.

(** The level as a whole when its snap text differs: both resolved
    buckets are put into the live list. *)
Lemma level_replaces_both w lev i bs bc :
  idle (work w) ->
  bucketList (mApp w) !! mLevel (work w) = Some lev ->
  currentBuckets mApplyState !! mLevel (work w) = Some i ->
  snap i <> binToHex (getHash (getSnap lev)) ->
  resolve (snap i) = Ok bs ->
  resolve (curr i) = Ok bc ->
  exists w',
    wholeLevel w
    = Ok (if (mLevel (work w) =? 0)%nat then WORK_SUCCESS else WORK_PENDING,
          w')
    /\ mApplying (work w') = true
    /\ bucketList (mApp w')
       = <[mLevel (work w) := mkLevel bc bs]> (bucketList (mApp w))
    /\ commits (mApp w')
       = commits (mApp w)
         ++ [mkCommit (mLevel (work w)) SNAP bs;
             mkCommit (mLevel (work w)) CURR bc]
    /\ mBucketApplyStart (mApp w') = S (S (mBucketApplyStart (mApp w)))
    /\ mBucketApplySuccess (mApp w') = S (S (mBucketApplySuccess (mApp w)))
    /\ database (mApp w')
       = database (mApp w) ++ getEntries bs ++ getEntries bc.
Proof.
  intros Hidle Hlev Hi Hs Hrs Hrc.
  apply differs_true in Hs.
  destruct (wholeLevel_planned w lev i (Some bs) (Some bc) Hidle Hlev Hi)
    as (w' & Hw & Hwork & Hbl & Hdb & Hm1 & Hm2 & Hcs).
  - rewrite Hs, orb_true_r. split; [reflexivity|exact Hrs].
  - rewrite Hs, orb_true_r. split; [reflexivity|exact Hrc].
  - exists w'. rewrite Hwork, Hs, orb_true_r. simpl in *.
    repeat split; try assumption; lia.
Qed.

(** [getBucket] of a non-zero hash, by the pool's entry under the text. *)
Lemma getBucket_by_text hash x w :
  hexToBin256 hash = Some x ->
  isZero x = false ->
  getBucket hash w
  = match mBuckets !! hash with
    | Some (Some b) => Ok (b, noteLookups [PoolFind hash] w)
    | Some None => Throw MissingBucketError
    | None =>
        match getBucketByHash x with
        | Some b => Ok (b, noteLookups [PoolFind hash; StoreGet x] w)
        | None => Throw MissingBucketError
        end
    end.
Proof.
  intros Hx Hz. rewrite getBucket_resolve. unfold resolve, lookupsOf.
  rewrite Hx, Hz. destruct (mBuckets !! hash) as [[b|]|]; try reflexivity.
  destruct (getBucketByHash x); reflexivity.
Qed.

End ApplyBucketsWork.

(** ** Hash texts *)

Section HashText.

Variable hexToBin256 : string -> option uint256.
Variable binToHex : uint256 -> string.
Variable getBucketByHash : uint256 -> option Bucket.
Variable mApplyState : HistoryArchiveState.

(** An entry of the pool under another text plays no part in the
    resolution of [hash]. *)
Lemma getBucket_other_key (pool : gmap string (option Bucket))
    (k hash : string) (p : option Bucket) (w : World) :
  k <> hash ->
  getBucket hexToBin256 getBucketByHash (<[k := p]> pool) hash w
  = getBucket hexToBin256 getBucketByHash pool hash w.
Proof.
  intros Hk. rewrite !getBucket_resolve. unfold resolve, lookupsOf.
  rewrite (lookup_insert_ne pool k hash p Hk). reflexivity.
Qed.

(** C10, hash equality is hex-text equality, as the code has it: the
    start-of-level test is string equality between the target's hex text
    and the rendering of the live hash, and the pool is looked up under
    the text as it is. So a text [h] that decodes to [x] without being
    the rendering of [x] makes [onStart] resolve and start the bucket of
    [h], and the level put it into the live list, even against a live
    bucket whose hash is [x]; in the pool it finds the entry stored under
    [h] itself and no other, an entry under the rendering of [x]
    included, and with no entry under [h] it goes to the store under
    [x]. *)
Theorem hash_equality_is_textual
    (mBuckets : gmap string (option Bucket)) (h : string) (x : uint256) :
  hexToBin256 h = Some x ->
  isZero x = false ->
  h <> binToHex x ->
  let resolve' := resolve hexToBin256 getBucketByHash mBuckets in
  let lookupsOf' := lookupsOf hexToBin256 mBuckets in
  let onStart' :=
    onStart hexToBin256 binToHex getBucketByHash mBuckets mApplyState in
  let wholeLevel' :=
    wholeLevel hexToBin256 binToHex getBucketByHash mBuckets mApplyState in
  let getBucket' := getBucket hexToBin256 getBucketByHash in
  let fromStore w :=
    match getBucketByHash x with
    | Some b => Ok (b, noteLookups [PoolFind h; StoreGet x] w)
    | None => Throw MissingBucketError
    end in
  (forall w lev i,
      bucketList (mApp w) !! mLevel (work w) = Some lev ->
      currentBuckets mApplyState !! mLevel (work w) = Some i ->
      mApplying (work w) = false ->
      let both :=
        match resolve' (snap i) with
        | Ok bs =>
            match resolve' (curr i) with
            | Ok bc =>
                Ok (tt, withCurr bc
                          (noteLookups (lookupsOf' (curr i))
                             (withSnap bs
                                (noteLookups (lookupsOf' (snap i)) w))))
            | Throw e => Throw e
            end
        | Throw e => Throw e
        end in
      let currOnly :=
        match resolve' (curr i) with
        | Ok bc =>
            Ok (tt, withCurr bc (noteLookups (lookupsOf' (curr i)) w))
        | Throw e => Throw e
        end in
      let l := mLevel (work w) in
      let st := if (l =? 0)%nat then WORK_SUCCESS else WORK_PENDING in
      (snap i <> binToHex (getHash (getSnap lev)) -> onStart' w = both)
      /\ (snap i = binToHex (getHash (getSnap lev)) ->
          curr i <> binToHex (getHash (getCurr lev)) ->
          onStart' w = currOnly)
      /\ (snap i = binToHex (getHash (getSnap lev)) ->
          curr i = binToHex (getHash (getCurr lev)) ->
          onStart' w = Ok (tt, w))
      /\ (snap i = h -> getHash (getSnap lev) = x -> onStart' w = both)
      /\ (curr i = h -> getHash (getCurr lev) = x ->
          snap i = binToHex (getHash (getSnap lev)) ->
          onStart' w = currOnly)
      /\ (idle (work w) -> snap i = h -> getHash (getSnap lev) = x ->
          forall bs bc,
            resolve' h = Ok bs -> resolve' (curr i) = Ok bc ->
            exists w',
              wholeLevel' w = Ok (st, w')
              /\ mApplying (work w') = true
              /\ bucketList (mApp w')
                 = <[l := mkLevel bc bs]> (bucketList (mApp w))
              /\ commits (mApp w')
                 = commits (mApp w) ++ [mkCommit l SNAP bs; mkCommit l CURR bc]
              /\ mBucketApplyStart (mApp w')
                 = S (S (mBucketApplyStart (mApp w)))
              /\ mBucketApplySuccess (mApp w')
                 = S (S (mBucketApplySuccess (mApp w))))
      /\ (idle (work w) -> curr i = h -> getHash (getCurr lev) = x ->
          snap i = binToHex (getHash (getSnap lev)) ->
          forall b,
            resolve' h = Ok b ->
            exists w',
              wholeLevel' w = Ok (st, w')
              /\ mApplying (work w') = true
              /\ bucketList (mApp w')
                 = <[l := mkLevel b (getSnap lev)]> (bucketList (mApp w))
              /\ commits (mApp w') = commits (mApp w) ++ [mkCommit l CURR b]
              /\ mBucketApplyStart (mApp w')
                 = S (mBucketApplyStart (mApp w))
              /\ mBucketApplySuccess (mApp w')
                 = S (mBucketApplySuccess (mApp w))))
  /\ (forall w,
        getBucket' mBuckets h w
        = match mBuckets !! h with
          | Some (Some b) => Ok (b, noteLookups [PoolFind h] w)
          | Some None => Throw MissingBucketError
          | None => fromStore w
          end)
  /\ (forall p w,
        getBucket' (<[binToHex x := p]> mBuckets) h w
        = getBucket' mBuckets h w)
  /\ (mBuckets !! h = None -> forall w, getBucket' mBuckets h w = fromStore w)
  /\ ((forall k p, mBuckets !! k = Some p ->
         exists y, hexToBin256 k = Some y /\ k = binToHex y) ->
      mBuckets !! h = None
      /\ forall w, getBucket' mBuckets h w = fromStore w).
Proof.
  intros Hx Hz Hne resolve' lookupsOf' onStart' wholeLevel' getBucket'
    fromStore.
  assert (Hget : forall w,
    getBucket' mBuckets h w
    = match mBuckets !! h with
      | Some (Some b) => Ok (b, noteLookups [PoolFind h] w)
      | Some None => Throw MissingBucketError
      | None => fromStore w
      end)
    by (intros w; apply (getBucket_by_text _ _ _ h x w Hx Hz)).
  split; [|split; [exact Hget|split; [|split]]].
  - intros w lev i Hlev Hi Ha both currOnly l st.
    pose proof (onStart_outcome hexToBin256 binToHex getBucketByHash
                  mBuckets mApplyState w lev i Hlev Hi Ha) as Hout.
    fold onStart' resolve' lookupsOf' in Hout.
    assert (Hsnap : snap i <> binToHex (getHash (getSnap lev)) ->
              onStart' w = both).
    { intros Hd. apply differs_true in Hd. rewrite Hout, Hd. reflexivity. }
    assert (Hcurr : snap i = binToHex (getHash (getSnap lev)) ->
              curr i <> binToHex (getHash (getCurr lev)) ->
              onStart' w = currOnly).
    { intros Hs Hd. apply differs_false in Hs. apply differs_true in Hd.
      rewrite Hout, Hs, Hd. reflexivity. }
    split; [exact Hsnap|]. split; [exact Hcurr|].
    split; [|split; [|split; [|split]]].
    + intros Hs Hc. apply differs_false in Hs, Hc.
      rewrite Hout, Hs, Hc. reflexivity.
    + intros Hs Hh. apply Hsnap. congruence.
    + intros Hc Hh Hs. apply (Hcurr Hs). congruence.
    + intros Hidle Hs Hh bs bc Hrs Hrc.
      destruct (level_replaces_both hexToBin256 binToHex getBucketByHash
                  mBuckets mApplyState w lev i bs bc Hidle Hlev Hi)
        as (w' & Hw & Hf & Hbl & Hcs & Hm1 & Hm2 & _);
        [congruence|rewrite Hs; exact Hrs|exact Hrc|].
      exists w'. repeat split; assumption.
    + intros Hidle Hc Hh Hs b Hr.
      destruct (level_replaces_curr hexToBin256 binToHex getBucketByHash
                  mBuckets mApplyState w lev i b Hidle Hlev Hi Ha Hs)
        as (w' & Hw & Hf & Hbl & Hcs & Hm1 & Hm2 & _);
        [congruence|rewrite Hc; exact Hr|].
      exists w'. repeat split; assumption.
  - intros p w. apply getBucket_other_key. congruence.
  - intros Hmiss w. rewrite Hget, Hmiss. reflexivity.
  - intros Hkeys.
    assert (Hmiss : mBuckets !! h = None).
    { destruct (mBuckets !! h) as [p|] eqn:Hp; [|reflexivity].
      destruct (Hkeys h p Hp) as [y [Hy Hk]].
      rewrite Hx in Hy. injection Hy as <-. contradiction. }
    split; [exact Hmiss|]. intros w. rewrite Hget, Hmiss. reflexivity.
Qed.

End HashText.

(** ** The properties on the three-level instance *)

Section Instance.

Import Scenario.

Local Abbreviation runB :=
  (run Hex.hexToBin256 Hex.binToHex store 3 2 pool targetB).

Lemma live_differs_at_2 : currDiffers Hex.binToHex targetB live 2.
Proof.
  exists (mkLevel bucketE bucketF), (describe (mkLevel bucketG bucketF)).
  split; [reflexivity|]. split; [reflexivity|].
  intros H. vm_compute in H. discriminate H.
Qed.

Lemma cascade_replaces_finer_levels_witness :
  exists w',
    runB 20 liveApp = Finished w'
    /\ currDiffers Hex.binToHex targetB (bucketList liveApp) 2
    /\ replacedAt Hex.hexToBin256 store pool targetB (mApp w') 0.
Proof.
  eexists. split; [vm_compute; reflexivity|].
  split; [exact live_differs_at_2|].
  apply (cascade_replaces_finer_levels Hex.hexToBin256 Hex.binToHex store
           3 2 pool targetB 20 liveApp _ 2 0).
  - vm_compute. reflexivity.
  - lia.
  - lia.
  - right. exact live_differs_at_2.
Defined.

Lemma missing_bucket_fatal_witness :
  Hex.hexToBin256 missingHex = Some (hashOf Byte.x99)
  /\ isZero (hashOf Byte.x99) = false
  /\ pool !! missingHex = None
  /\ store (hashOf Byte.x99) = None
  /\ getBucket Hex.hexToBin256 store pool missingHex (idleWorld 2)
     = Throw MissingBucketError
  /\ run Hex.hexToBin256 Hex.binToHex store 3 2 pool targetD 1 liveApp
     = Aborted MissingBucketError.
Proof.
  assert (H1 : Hex.hexToBin256 missingHex = Some (hashOf Byte.x99))
    by (vm_compute; reflexivity).
  assert (H2 : isZero (hashOf Byte.x99) = false) by reflexivity.
  assert (H3 : pool !! missingHex = None) by (vm_compute; reflexivity).
  assert (H4 : store (hashOf Byte.x99) = None) by reflexivity.
  destruct (missing_bucket_fatal Hex.hexToBin256 Hex.binToHex store 2 pool
              targetD missingHex (hashOf Byte.x99) H1 H2 H3 H4)
    as (G1 & _ & G3).
  refine (conj H1 (conj H2 (conj H3 (conj H4 (conj (G1 _) _))))).
  apply (G3 (idleWorld 2) (mkLevel bucketE bucketF)
            (mkHSB missingHex (hexOf bucketF)) 0);
    [reflexivity|reflexivity|].
  right. left. repeat split; vm_compute; reflexivity.
Defined.

Local Abbreviation invokeB :=
  (invoke Hex.hexToBin256 Hex.binToHex store 3 2 pool targetB).

Lemma single_commit_point_witness :
  (exists w',
      runB 20 liveApp = Finished w'
      /\ assumedStates (mApp w') = [targetB]
      /\ installedHead (mApp w') = Some targetB)
  /\ (exists w',
        invokeB HSuccess lastWorld = Ok (Some WORK_SUCCESS, w')
        /\ assumedStates (mApp w') = [targetB])
  /\ (forall r w',
        invokeB HSuccess appliedWorld = Ok (r, w') ->
        assumedStates (mApp w') = []).
Proof.
  pose proof (single_commit_point Hex.hexToBin256 Hex.binToHex store
                3 2 pool targetB) as [Hhook Hrun].
  split; [|split].
  - eexists. split; [vm_compute; reflexivity|].
    destruct (Hrun 20 liveApp _ ltac:(vm_compute; reflexivity)) as [Has _].
    split; [exact Has|]. unfold installedHead. rewrite Has. reflexivity.
  - eexists. split; [vm_compute; reflexivity|].
    destruct (Hhook HSuccess lastWorld _ _ ltac:(vm_compute; reflexivity))
      as [Has|(_ & _ & _ & _ & _ & Has)]; [discriminate Has|exact Has].
  - intros r w' H.
    destruct (Hhook HSuccess appliedWorld r w' H)
      as [Has|(_ & Hl & _)]; [exact Has|discriminate Hl].
Defined.

Lemma commit_atomicity_witness :
  (exists w',
      invokeB HSuccess appliedWorld = Ok (Some WORK_PENDING, w')
      /\ bucketList (mApp w') !! 1 = bucketList (mApp appliedWorld) !! 1
      /\ bucketList (mApp w') !! 0 = bucketList (mApp appliedWorld) !! 0)
  /\ invokeB HSuccess startedWorld = Ok (Some WORK_RUNNING, startedWorld)
  /\ forall w' r, invokeB HRun startedWorld = Ok (r, w') ->
       bucketList (mApp w') = live.
Proof.
  split; [|split].
  - eexists. split; [vm_compute; reflexivity|].
    split;
      apply (commit_atomicity Hex.hexToBin256 Hex.binToHex store 3 2 pool
               targetB HSuccess appliedWorld _ (Some WORK_PENDING)
               ltac:(vm_compute; reflexivity));
      simpl; lia.
  - vm_compute. reflexivity.
  - intros w' r H.
    apply (commit_atomicity Hex.hexToBin256 Hex.binToHex store 3 2 pool
             targetB HRun startedWorld w' r H). reflexivity.
Defined.

Lemma startedWorld_reachable :
  reachable Hex.hexToBin256 Hex.binToHex store 3 2 pool targetB startedWorld.
Proof.
  apply (reach_invoke Hex.hexToBin256 Hex.binToHex store 3 2 pool targetB
           HStart (newWork 3 liveApp) startedWorld None).
  - apply reach_new.
  - vm_compute. reflexivity.
Qed.

Lemma step_ordering_and_bound_witness :
  exists w',
    onRun 2 startedWorld = Ok (tt, w')
    /\ mSnapApplicator (work w') = None
    /\ rest (mCurrApplicator (work w'))
       = [LIVEENTRY "g3"; DEADENTRY "g4"; LIVEENTRY "g5"]
    /\ database (mApp w') = [LIVEENTRY "g1"; LIVEENTRY "g2"]
    /\ snapFirst (work w').
Proof.
  destruct (step_ordering_and_bound Hex.hexToBin256 Hex.binToHex store 3 2
              pool targetB startedWorld)
    as (w' & Hrun & _ & Hcurr & _ & _ & Hreach).
  exists w'. split; [exact Hrun|].
  destruct (Hcurr eq_refl) as (Hs & Hr & Hdb).
  destruct (Hreach startedWorld_reachable) as [_ Hsf].
  repeat split; assumption.
Defined.

Lemma live_matches_targetA : matchesTarget Hex.binToHex targetA live.
Proof.
  intros l lev H.
  destruct l as [|[|[|l]]]; simpl in H; try discriminate;
    injection H as <-; eexists; (split; [reflexivity|]);
    split; vm_compute; reflexivity.
Qed.

Lemma noop_idempotence_witness :
  0 < 3
  /\ length (bucketList liveApp) = 3
  /\ matchesTarget Hex.binToHex targetA (bucketList liveApp)
  /\ run Hex.hexToBin256 Hex.binToHex store 3 2 pool targetA 3 liveApp
     = Finished (mkWorld (mkWork false 0 None None None None)
                         (mkApp live [] 0 0 0 [targetA] [] [])).
Proof.
  assert (H1 : 0 < 3) by lia.
  assert (H2 : length (bucketList liveApp) = 3) by reflexivity.
  refine (conj H1 (conj H2 (conj live_matches_targetA _))).
  exact (proj1 (noop_idempotence Hex.hexToBin256 Hex.binToHex store 3 2 pool
                  targetA liveApp H1 H2 live_matches_targetA)).
Defined.

Lemma zero_hash_sentinel_witness :
  Hex.hexToBin256 zeroHex = Some zeroHash
  /\ isZero zeroHash = true
  /\ getBucket Hex.hexToBin256 store pool zeroHex (idleWorld 2)
     = Ok (emptyBucket, idleWorld 2).
Proof.
  assert (H1 : Hex.hexToBin256 zeroHex = Some zeroHash)
    by (vm_compute; reflexivity).
  assert (H2 : isZero zeroHash = true) by reflexivity.
  refine (conj H1 (conj H2 _)).
  exact (proj1 (zero_hash_sentinel Hex.hexToBin256 store pool zeroHex zeroHash
                  (idleWorld 2) H1 H2)).
Defined.

Lemma curr_only_trigger_witness :
  exists fuel w',
    runB fuel liveApp = Finished w'
    /\ commits (mApp w')
       = [mkCommit 2 CURR bucketG; mkCommit 1 SNAP bucketD;
          mkCommit 1 CURR bucketC; mkCommit 0 SNAP bucketB;
          mkCommit 0 CURR bucketA]
    /\ mBucketApplyStart (mApp w') = 5
    /\ mBucketApplySuccess (mApp w') = 5.
Proof.
  destruct (curr_only_trigger Hex.hexToBin256 Hex.binToHex store 3 2 pool
              targetB liveApp
              (mkLevel bucketA bucketB) (mkLevel bucketC bucketD)
              (mkLevel bucketE bucketF)
              (describe (mkLevel bucketA bucketB))
              (describe (mkLevel bucketC bucketD))
              (describe (mkLevel bucketG bucketF))
              bucketG bucketD bucketC bucketB bucketA)
    as (fuel & w' & Hrun & Hcs & _ & Hm1 & Hm2 & _);
    try (vm_compute; reflexivity); try lia.
  - intros H. vm_compute in H. discriminate H.
  - exists fuel, w'. repeat split; assumption.
Defined.

(** A reset between two levels: in scenario B, once level 2 is committed
    the live list carries the target's hashes everywhere, so the run that
    follows the reset replaces nothing more. *)
Lemma reset_after_first_commit :
  exists w2 w3 w',
    invokeB HSuccess appliedWorld = Ok (Some WORK_PENDING, w2)
    /\ invokeB HReset w2 = Ok (None, w3)
    /\ w3 = newWork 3 (mApp w2)
    /\ runB 3 (mApp w2) = Finished w'
    /\ commits (mApp w') = [mkCommit 2 CURR bucketG]
    /\ mBucketApplyStart (mApp w') = 1.
Proof.
  do 3 eexists.
  split; [vm_compute; reflexivity|].
  split; [vm_compute; reflexivity|].
  split; [vm_compute; reflexivity|].
  split; [vm_compute; reflexivity|].
  split; reflexivity.
Qed.


(** *** The further properties on the instance *)

Lemma pool_takes_precedence_witness :
  Hex.hexToBin256 (hexOf bucketG) = Some (getHash bucketG)
  /\ isZero (getHash bucketG) = false
  /\ pool !! hexOf bucketG = Some (Some bucketG)
  /\ getBucket Hex.hexToBin256 store pool (hexOf bucketG) (idleWorld 2)
     = Ok (bucketG, noteLookups [PoolFind (hexOf bucketG)] (idleWorld 2)).
Proof.
  assert (H1 : Hex.hexToBin256 (hexOf bucketG) = Some (getHash bucketG))
    by (vm_compute; reflexivity).
  assert (H2 : isZero (getHash bucketG) = false) by reflexivity.
  assert (H3 : pool !! hexOf bucketG = Some (Some bucketG))
    by (vm_compute; reflexivity).
  refine (conj H1 (conj H2 (conj H3 _))).
  exact (proj1 (pool_takes_precedence Hex.hexToBin256 store pool
                  (hexOf bucketG) (getHash bucketG) (Some bucketG)
                  (idleWorld 2) H1 H2 H3)).
Defined.

Lemma short_target_aborts_witness :
  length (currentBuckets targetShort) < 3
  /\ run Hex.hexToBin256 Hex.binToHex store 3 2 pool targetShort 1 liveApp
     = Aborted OutOfRange.
Proof.
  assert (H1 : length (currentBuckets targetShort) < 3) by (simpl; lia).
  refine (conj H1 _).
  exact (proj2 (short_target_aborts Hex.hexToBin256 Hex.binToHex store 3 2
                  pool targetShort 0 liveApp H1)).
Defined.

Lemma cursor_stays_in_range_witness :
  exists w',
    invokeB HSuccess appliedWorld = Ok (Some WORK_PENDING, w')
    /\ mLevel (work w') = 1
    /\ length (bucketList (mApp w')) = 3
    /\ is_Some (bucketList (mApp w') !! mLevel (work w')).
Proof.
  eexists. split; [vm_compute; reflexivity|].
  destruct (cursor_stays_in_range Hex.hexToBin256 Hex.binToHex store 3 2 pool
              targetB HSuccess appliedWorld _ (Some WORK_PENDING)
              ltac:(vm_compute; reflexivity)
              ltac:(lia) ltac:(simpl; lia) ltac:(simpl; lia))
    as (Hlen & _ & Hsome & _).
  split; [reflexivity|]. split; [exact Hlen|exact Hsome].
Defined.

Lemma flag_is_sticky_witness :
  exists w',
    invokeB HSuccess appliedWorld = Ok (Some WORK_PENDING, w')
    /\ mApplying (work appliedWorld) = true
    /\ mApplying (work w') = true.
Proof.
  eexists. split; [vm_compute; reflexivity|]. split; [reflexivity|].
  apply (proj1 (flag_is_sticky Hex.hexToBin256 Hex.binToHex store 3 2 pool
                  targetB HSuccess appliedWorld _ (Some WORK_PENDING)
                  ltac:(vm_compute; reflexivity)));
    [reflexivity|discriminate].
Defined.

Lemma success_meter_counts_commits_witness :
  exists w',
    invokeB HSuccess appliedWorld = Ok (Some WORK_PENDING, w')
    /\ mBucketApplySuccess (mApp w') + 0 = 0 + length (commits (mApp w')).
Proof.
  eexists. split; [vm_compute; reflexivity|].
  exact (proj1 (success_meter_counts_commits Hex.hexToBin256 Hex.binToHex
                  store 3 2 pool targetB HSuccess appliedWorld _
                  (Some WORK_PENDING) ltac:(vm_compute; reflexivity))).
Defined.

Lemma database_is_append_only_witness :
  exists w' more,
    invokeB HRun startedWorld = Ok (None, w')
    /\ database (mApp w') = database (mApp startedWorld) ++ more
    /\ length more <= 2.
Proof.
  eexists.
  destruct (database_is_append_only Hex.hexToBin256 Hex.binToHex store 3 2
              pool targetB HRun startedWorld _ None
              ltac:(vm_compute; reflexivity))
    as (more & Hdb & Hlen & _).
  exists more. split; [vm_compute; reflexivity|]. split; assumption.
Defined.

Lemma failure_meter_marks_witness :
  exists w',
    invokeB HFailureRetry startedWorld = Ok (None, w')
    /\ mBucketApplyFailure (mApp w') = 1
    /\ work w' = work startedWorld.
Proof.
  eexists. split; [vm_compute; reflexivity|].
  destruct (proj1 (failure_meter_marks Hex.hexToBin256 Hex.binToHex store
                     3 2 pool targetB HFailureRetry startedWorld _ None
                     ltac:(vm_compute; reflexivity))
                  (or_introl eq_refl))
    as (Hf & Hw & _).
  split; [exact Hf|exact Hw].
Defined.

Lemma run_applies_what_it_commits_witness :
  exists w' cs,
    runB 20 liveApp = Finished w'
    /\ commits (mApp w') = commits liveApp ++ cs
    /\ database (mApp w') = database liveApp ++ appliedBy cs
    /\ mBucketApplySuccess (mApp w')
       = mBucketApplySuccess liveApp + length cs.
Proof.
  eexists.
  destruct (run_applies_what_it_commits Hex.hexToBin256 Hex.binToHex store
              3 2 pool targetB 20 liveApp _ ltac:(vm_compute; reflexivity))
    as (cs & Hc & Hd & _ & Hu).
  exists cs. split; [vm_compute; reflexivity|]. repeat split; assumption.
Defined.

Lemma run_commits_in_walk_order_witness :
  exists w' cs,
    runB 20 liveApp = Finished w'
    /\ commits (mApp w') = commits liveApp ++ cs
    /\ StronglySorted commitBefore cs
    /\ length cs <= 6.
Proof.
  eexists.
  destruct (run_commits_in_walk_order Hex.hexToBin256 Hex.binToHex store
              3 2 pool targetB 20 liveApp _ ltac:(vm_compute; reflexivity)
              ltac:(lia))
    as (cs & Hc & Hs & _ & Hl).
  exists cs. split; [vm_compute; reflexivity|]. repeat split; assumption.
Defined.

Lemma targetB_faithful :
  faithful Hex.hexToBin256 Hex.binToHex store pool targetB.
Proof.
  intros l i H.
  destruct l as [|[|[|l]]]; simpl in H; try discriminate;
    injection H as <-; split; intros b Hb; vm_compute in Hb;
    injection Hb as <-; vm_compute; reflexivity.
Qed.

Lemma run_reaches_target_witness :
  exists w',
    runB 20 liveApp = Finished w'
    /\ matchesTarget Hex.binToHex targetB (bucketList (mApp w'))
    /\ runB 3 (mApp w')
       = Finished (idleAt false 0 (assumeState targetB (mApp w'))).
Proof.
  eexists. split; [vm_compute; reflexivity|].
  destruct (run_reaches_target Hex.hexToBin256 Hex.binToHex store 3 2 pool
              targetB 20 liveApp _ ltac:(vm_compute; reflexivity)
              ltac:(lia) eq_refl targetB_faithful)
    as (Hm & _ & Hr).
  split; [exact Hm|exact Hr].
Defined.

Lemma targetB_resolvable :
  resolvable Hex.hexToBin256 store pool targetB 3.
Proof.
  intros l Hl.
  destruct l as [|[|[|l]]]; try lia;
    eexists; eexists; eexists;
    (split; [reflexivity|]); split; vm_compute; reflexivity.
Qed.

Lemma run_completes_within_witness :
  0 < 2 /\ 0 < 3 /\ 3 <= length (bucketList liveApp)
  /\ exists fuel w',
       runB fuel liveApp = Finished w'
       /\ fuel + length (database liveApp)
          <= 3 + length (database (mApp w')).
Proof.
  assert (H1 : 0 < 2) by lia.
  assert (H2 : 0 < 3) by lia.
  assert (H3 : 3 <= length (bucketList liveApp)) by (simpl; lia).
  refine (conj H1 (conj H2 (conj H3 _))).
  exact (run_completes_within Hex.hexToBin256 Hex.binToHex store 3 2 pool
           targetB liveApp H1 H2 H3 targetB_resolvable).
Defined.

Lemma applicator_follows_bucket_witness :
  reachable Hex.hexToBin256 Hex.binToHex store 3 2 pool targetB startedWorld
  /\ slotsPaired (work startedWorld)
  /\ is_Some (mCurrBucket (work startedWorld)).
Proof.
  destruct (applicator_follows_bucket Hex.hexToBin256 Hex.binToHex store 3 2
              pool targetB startedWorld startedWorld_reachable)
    as (Hp & _ & Hc).
  split; [exact startedWorld_reachable|]. split; [exact Hp|].
  apply Hc. reflexivity.
Defined.

Lemma snap_never_replaced_alone_witness :
  exists w' cs,
    runB 20 liveApp = Finished w'
    /\ commits (mApp w') = commits liveApp ++ cs
    /\ (In (mkCommit 1 SNAP bucketD) cs ->
        exists bc, In (mkCommit 1 CURR bc) cs).
Proof.
  eexists.
  destruct (snap_never_replaced_alone Hex.hexToBin256 Hex.binToHex store
              3 2 pool targetB 20 liveApp _ ltac:(vm_compute; reflexivity))
    as (cs & Hc & Hp).
  exists cs. split; [vm_compute; reflexivity|].
  split; [exact Hc|apply Hp].
Defined.


Lemma malformed_hash_throws_witness :
  Hex.hexToBin256 "not-a-hash" = None
  /\ oddPool !! "not-a-hash"%string = Some (Some bucketG)
  /\ getBucket Hex.hexToBin256 store oddPool "not-a-hash" (idleWorld 2)
     = Throw RuntimeError.
Proof.
  assert (H1 : Hex.hexToBin256 "not-a-hash" = None) by reflexivity.
  assert (H2 : oddPool !! "not-a-hash"%string = Some (Some bucketG))
    by (vm_compute; reflexivity).
  refine (conj H1 (conj H2 _)).
  exact (proj1 (malformed_hash_throws Hex.hexToBin256 Hex.binToHex store 2
                  oddPool targetB "not-a-hash" H1) (idleWorld 2)).
Defined.


Lemma hash_equality_is_textual_witness :
  Hex.hexToBin256 upperE = Some (getHash bucketE)
  /\ isZero (getHash bucketE) = false
  /\ upperE <> Hex.binToHex (getHash bucketE)
  /\ onStart Hex.hexToBin256 Hex.binToHex store pool targetUpper (idleWorld 2)
     = Ok (tt, withCurr bucketE
                 (noteLookups [PoolFind upperE; StoreGet (getHash bucketE)]
                              (idleWorld 2)))
  /\ (exists w',
        wholeLevel Hex.hexToBin256 Hex.binToHex store pool targetUpper
                   (idleWorld 2)
        = Ok (WORK_PENDING, w')
        /\ commits (mApp w') = [mkCommit 2 CURR bucketE]
        /\ mBucketApplySuccess (mApp w') = 1)
  /\ pool !! upperE = None
  /\ getBucket Hex.hexToBin256 store poolWithE upperE (idleWorld 2)
     = Ok (bucketE,
           noteLookups [PoolFind upperE; StoreGet (getHash bucketE)]
                       (idleWorld 2)).
Proof.
  assert (H1 : Hex.hexToBin256 upperE = Some (getHash bucketE))
    by (vm_compute; reflexivity).
  assert (H2 : isZero (getHash bucketE) = false) by reflexivity.
  assert (H3 : upperE <> Hex.binToHex (getHash bucketE))
    by (intros H; vm_compute in H; discriminate H).
  assert (H4 : pool !! upperE = None) by (vm_compute; reflexivity).
  destruct (hash_equality_is_textual Hex.hexToBin256 Hex.binToHex store
              targetUpper pool upperE (getHash bucketE) H1 H2 H3)
    as (Htest & _ & Hother & Hmiss & _).
  destruct (Htest (idleWorld 2) (mkLevel bucketE bucketF)
              (mkHSB upperE (hexOf bucketF)) eq_refl eq_refl eq_refl)
    as (_ & _ & _ & _ & Hcurr & _ & Hlevel).
  refine (conj H1 (conj H2 (conj H3 (conj _ (conj _ (conj H4 _)))))).
  - rewrite (Hcurr eq_refl eq_refl ltac:(vm_compute; reflexivity)).
    vm_compute. reflexivity.
  - destruct (Hlevel ltac:(apply idle_mkWork) eq_refl eq_refl
                ltac:(vm_compute; reflexivity) bucketE
                ltac:(vm_compute; reflexivity))
      as (w' & Hw & _ & _ & Hcs & _ & Hm).
    exists w'. split; [exact Hw|]. split; [exact Hcs|exact Hm].
  - unfold poolWithE, hexOf. rewrite (Hother (Some bucketG) (idleWorld 2)).
    rewrite (Hmiss H4 (idleWorld 2)). reflexivity.
Defined.

(** The pool is looked up under the text as it is: a pool that holds a
    bucket under the upper-case text answers for that text, and the
    store is not asked; so it is not for every text other than the
    rendering that the lookup goes on to the store. *)
Lemma hash_text_misses_pool_counterexample :
  ~ (forall h x,
       Hex.hexToBin256 h = Some x ->
       isZero x = false ->
       h <> Hex.binToHex x ->
       forall w,
         getBucket Hex.hexToBin256 store upperPool h w
         = match store x with
           | Some b => Ok (b, noteLookups [PoolFind h; StoreGet x] w)
           | None => Throw MissingBucketError
           end).
Proof.
  intros H.
  assert (E : getBucket Hex.hexToBin256 store upperPool upperE (idleWorld 2)
              = match store (getHash bucketE) with
                | Some b =>
                    Ok (b, noteLookups
                             [PoolFind upperE; StoreGet (getHash bucketE)]
                             (idleWorld 2))
                | None => Throw MissingBucketError
                end).
  { apply H.
    - vm_compute. reflexivity.
    - reflexivity.
    - intros E. vm_compute in E. discriminate E. }
  vm_compute in E. discriminate E.
Qed.

(** On that pool the bucket comes from the pool, with the pool lookup
    alone on record. *)
Lemma upper_text_hits_upperPool :
  getBucket Hex.hexToBin256 store upperPool upperE (idleWorld 2)
  = Ok (bucketE, noteLookups [PoolFind upperE] (idleWorld 2)).
Proof. vm_compute. reflexivity. Qed.

End Instance.
